(** * p2p/shim.go: the reactor shim between the legacy reactor interface
      and the channel-based p2p interface.

    The Go code is embedded as functions over an explicit program state:
    the [ReactorShim] struct, the set of Go channels that the code of
    shim.go has closed, and the trace of the effects performed so far
    (values handed over on a channel, log lines, validator hooks, legacy
    sends, closes). A method is a computation in a small state-and-panic
    monad. What the Go runtime or the environment decides (the order in
    which a map is ranged over, whether a receiver is blocked on a channel
    when a [select] runs) is an argument of the method. *)

From Stdlib Require Import Strings.Byte NArith.
From stdpp Require Import base option list gmap strings.

Local Open Scope string_scope.
Local Open Scope list_scope.
Local Open Scope nat_scope.

(** ** Plain data *)

(** Go's [error] values are represented by their message. *)
Definition error := string.

(** The identity of a Go channel created by [make(chan T)]. *)
Definition chan_ref := nat.

(** [p2p.ChannelID]: an unsigned integer type wider than [byte]; the
    conversion [ChannelID(b)] of a byte keeps its value. *)
Definition ChannelID := N.

Definition ChannelID_of_byte (b : byte) : ChannelID := Byte.to_N b.

(** Modelled from the spec: the struct [ChannelDescriptor] (declared outside
    shim.go), "metadata describing one legacy channel (priority, size
    limits, id)". The shim reads only [ID]. *)
Record ChannelDescriptor := {
  ID : byte;
  Priority : Z;
  SendQueueCapacity : Z;
  RecvBufferCapacity : Z;
  RecvMessageCapacity : Z
}.

Inductive PeerStatus := PeerStatusUp | PeerStatusDown.

Inductive LogLevel := LvlDebug | LvlError.

(** The legacy [Peer] interface, as far as the shim uses it: [ID()] and the
    answer [Send(chID, bz)] gives. *)
Record Peer := {
  Peer_ID : string;
  Peer_Send : byte → list byte → bool
}.

(** ** External services *)

(** [proto.Clone], [Message.Reset], [proto.Unmarshal] and [proto.Marshal].
    [Unmarshal] fills the message it is given and returns an error or nil;
    [Marshal] returns the bytes and an error or nil. *)
Class ProtoCodec (proto_Message : Type) := {
  proto_Clone : proto_Message → proto_Message;
  proto_Reset : proto_Message → proto_Message;
  proto_Unmarshal : list byte → proto_Message → proto_Message * option error;
  proto_Marshal : proto_Message → list byte * option error
}.

(** [PeerIDFromString] and [PeerID.String], and the zero value of [PeerID]
    that a struct literal leaves in a field it does not set. *)
Class PeerIdentity (PeerID : Type) := {
  PeerIDFromString : string → PeerID * option error;
  PeerID_String : PeerID → string;
  PeerID_zero : PeerID
}.

Section Shim.

Context {proto_Message PeerID : Type}.
Context `{!ProtoCodec proto_Message} `{!PeerIdentity PeerID}.

(** ** The records of shim.go and of the new p2p interface *)

Record Envelope := {
  From : PeerID;
  To : PeerID;
  Message : proto_Message
}.

Record PeerUpdate := {
  upd_PeerID : PeerID;
  Status : PeerStatus
}.

(** Modelled from the spec: the handle [Channel] built by [NewChannel]
    (p2p/channel.go is not among the sources): the three endpoints wrapped
    "in a new-style channel handle bound to that channel's ID and message
    type". *)
Record Channel := {
  ch_ID : ChannelID;
  messageType : proto_Message;
  inCh : chan_ref;
  outCh : chan_ref;
  errCh : chan_ref
}.

Definition NewChannel (id : ChannelID) (mType : proto_Message)
    (i o e : chan_ref) : Channel :=
  {| ch_ID := id; messageType := mType; inCh := i; outCh := o; errCh := e |}.

(** Struct fields of pointer type that the code dereferences unconditionally
    hold the pointee. *)
Record ChannelShim := {
  Descriptor : ChannelDescriptor;
  cs_Channel : Channel;
  InCh : chan_ref;
  OutCh : chan_ref;
  PeerErrCh : chan_ref
}.

(** [MsgType] is an interface value that [Receive] clones unconditionally
    (line 193): it holds a message. A descriptor whose [MsgType] is nil, on
    which that line panics, is not represented. *)
Record ChannelDescriptorShim := {
  MsgType : proto_Message;
  cds_Descriptor : ChannelDescriptor
}.

(** The interface [MessageValidator]. [Validate] answers with an error or
    nil; [OnUnmarshalFailure] returns nothing, so a call of it is only
    recorded in the trace. *)
Record MessageValidator := {
  Validate : byte → Peer → list byte → proto_Message → option error
}.

(** The embedded [BaseReactor], as far as the shim reads it: the running
    flag behind [IsRunning()] and the peer set of the switch, keyed by the
    legacy string identity. Both are changed by the surrounding framework
    only. *)
Record BaseReactor := {
  IsRunning : bool;
  Switch_peers : gmap string Peer
}.

(** Modelled from the spec: [NewBaseReactor] (the base reactor is declared
    outside shim.go). Construction starts no task and the start hook finds
    the reactor "not yet running" at first: a new base reactor is not
    running and knows no peer. *)
Definition NewBaseReactor (name : string) : BaseReactor :=
  {| IsRunning := false; Switch_peers := ∅ |}.

Record ReactorShim := {
  base : BaseReactor;
  Name : string;
  PeerUpdateCh : chan_ref;
  Channels : gmap ChannelID ChannelShim;
  rs_MessageValidator : option MessageValidator
}.

(** ** Effects *)

Inductive Event :=
  | EvLog (level : LogLevel) (msg : string)
  (* a send [ch <- e] that handed its value to a receiver *)
  | EvEnvelope (ch : chan_ref) (e : Envelope)
  | EvPeerUpdate (ch : chan_ref) (u : PeerUpdate)
  (* calls of the validator's two methods *)
  | EvOnUnmarshalFailure (chID : byte) (src : Peer) (msgBytes : list byte)
                         (err : error)
  | EvValidate (chID : byte) (src : Peer) (msgBytes : list byte)
               (msg : proto_Message)
  (* a call [p.Send(chID, bz)] of the legacy peer *)
  | EvSend (p : Peer) (chID : byte) (bz : list byte)
  (* a call [c.Close()] of a channel handle, and a [close(ch)] *)
  | EvChannelClose (c : Channel)
  | EvClose (ch : chan_ref)
  (* a [go] statement starting the proxy task of one channel *)
  | EvGo (chID : byte) (out : chan_ref).

Record State := {
  self : ReactorShim;
  closed : gset chan_ref;
  trace : list Event
}.

Inductive Outcome (A : Type) :=
  | Done (a : A) (s : State)
  | Panic (v : string) (s : State).
Global Arguments Done {A} a s.
Global Arguments Panic {A} v s.

Definition M (A : Type) : Type := State → Outcome A.

Global Instance M_ret : MRet M := λ A a s, Done a s.

Global Instance M_bind : MBind M := λ A B k c s,
  match c s with
  | Done a s' => k a s'
  | Panic v s' => Panic v s'
  end.

Definition panic {A} (v : string) : M A := fun s => Panic v s.

Definition final {A} (o : Outcome A) : State :=
  match o with Done _ s => s | Panic _ s => s end.

Definition returns {A} (o : Outcome A) : bool :=
  match o with Done _ _ => true | Panic _ _ => false end.

(** ** Primitive actions *)

Definition get_self : M ReactorShim := λ s, Done (self s) s.

(** The state with the events [t] added to its trace. *)
Definition add_events (t : list Event) (s : State) : State :=
  {| self := self s; closed := closed s; trace := trace s ++ t |}.

Definition emit (e : Event) : M unit := λ s, Done tt (add_events [e] s).

Definition Logger_Error (msg : string) : M unit := emit (EvLog LvlError msg).
Definition Logger_Debug (msg : string) : M unit := emit (EvLog LvlDebug msg).

(** [select { case ch <- v: sent  default: dflt }] on an unbuffered channel.
    [delivery] is the event of [v] being handed over, [ready] tells whether
    a receiver is blocked on [ch] when the select runs. A send on a closed
    channel panics, inside a select as well. *)
Definition select_send {A} (ch : chan_ref) (delivery : Event) (ready : bool)
    (sent dflt : M A) : M A := λ s,
  if decide (ch ∈ closed s) then Panic "send on closed channel" s
  else if ready then (emit delivery ;; sent) s
  else dflt s.

(** The builtin [close(ch)]; closing a closed channel panics. *)
Definition close (ch : chan_ref) : M unit := λ s,
  if decide (ch ∈ closed s) then Panic "close of closed channel" s
  else Done tt {| self := self s; closed := {[ch]} ∪ closed s;
                  trace := trace s ++ [EvClose ch] |}.

(** [for _, x := range xs { body }] *)
Fixpoint range {A} (xs : list A) (body : A → M unit) : M unit :=
  match xs with
  | [] => mret tt
  | x :: xs => body x ;; range xs body
  end.

(** An order in which the runtime may range over a map: Go leaves the order
    open, each entry comes once. *)
Definition map_range {V} (m : gmap ChannelID V) (it : list (ChannelID * V)) : Prop :=
  it ≡ₚ map_to_list m.

(** Modelled from the spec: the method [Channel.Close] (p2p/channel.go is
    not among the sources), which closes the handle and may fail: "a close
    failure is logged". Whether closing a handle fails is left to
    [Channel_Close_err]. The call is recorded in the trace. What a handle
    does to its own endpoints when it is closed happens in channel.go (by
    the spec it shuts the outbound endpoint, which ends the proxy task of
    the channel) and is not recorded in [closed]: the channels that shim.go
    itself sends on or closes are the inbound endpoints and the peer-update
    channel. *)
Class ChannelClose := Channel_Close_err : Channel → option error.

Context `{!ChannelClose}.

Definition Channel_Close (c : Channel) : M (option error) :=
  emit (EvChannelClose c) ;; mret (Channel_Close_err c).

(** [p.Send(chID, bz)] of the legacy peer. *)
Definition Send (p : Peer) (chID : byte) (bz : list byte) : M bool :=
  emit (EvSend p chID bz) ;; mret (Peer_Send p chID bz).

(** [v.OnUnmarshalFailure(chID, src, msgBytes, err)] and
    [v.Validate(chID, src, msgBytes, msg)] *)
Definition OnUnmarshalFailure (v : MessageValidator) (chID : byte) (src : Peer)
    (msgBytes : list byte) (err : error) : M unit :=
  emit (EvOnUnmarshalFailure chID src msgBytes err).

Definition call_Validate (v : MessageValidator) (chID : byte) (src : Peer)
    (msgBytes : list byte) (msg : proto_Message) : M (option error) :=
  emit (EvValidate chID src msgBytes msg) ;; mret (Validate v chID src msgBytes msg).

(** ** NewShim *)

(** The loop over [descriptors]. [next] is the first channel identity not
    yet handed out by [make]; each round makes three channels. *)
Fixpoint NewShim_loop (descriptors : list ChannelDescriptorShim)
    (next : chan_ref) (channels : gmap ChannelID ChannelShim)
    : gmap ChannelID ChannelShim * chan_ref :=
  match descriptors with
  | [] => (channels, next)
  | cds :: descriptors =>
    let cID := ChannelID_of_byte (ID (cds_Descriptor cds)) in
    let inCh := next in
    let outCh := S next in
    let peerErrCh := S (S next) in
    NewShim_loop descriptors (S (S (S next)))
      (<[cID := {| Descriptor := cds_Descriptor cds;
                   cs_Channel := NewChannel cID (MsgType cds) inCh outCh peerErrCh;
                   InCh := inCh;
                   OutCh := outCh;
                   PeerErrCh := peerErrCh |}]> channels)
  end.

(** [NewShim(name, impl, descriptors, msgVal)]; [impl] only goes into the
    base reactor. The result is the state of the program after the call: the
    struct, no channel closed, nothing done yet. *)
Definition NewShim (name : string) (descriptors : list ChannelDescriptorShim)
    (msgVal : option MessageValidator) : State :=
  let br := NewBaseReactor name in
  let '(channels, next) := NewShim_loop descriptors 0 ∅ in
  {| self := {| base := br;
                Name := name;
                PeerUpdateCh := next;
                Channels := channels;
                rs_MessageValidator := msgVal |};
     closed := ∅;
     trace := [] |}.

(** ** proxyPeerEnvelopes *)

(** The body of [for e := range outCh] in the task of one channel. *)
Definition proxyEnvelope (chID : byte) (e : Envelope) : M unit :=
  rs ← get_self;
  match Switch_peers (base rs) !! PeerID_String (To e) with
  | None =>
    panic ("failed to proxy envelope; failed to find peer ("
             +:+ PeerID_String (To e) +:+ ")")
  | Some src =>
    let '(bz, err) := proto_Marshal (Message e) in
    match err with
    | Some err =>
      panic ("failed to proxy envelope; failed to encode message: " +:+ err)
    | None => _ ← Send src chID bz; mret tt
    end
  end.

(** The task of one channel: [es] are the envelopes it receives on [outCh]
    before the channel is closed. *)
Definition proxyTask (chID : byte) (es : list Envelope) : M unit :=
  range es (proxyEnvelope chID).

Definition proxyPeerEnvelopes (it : list (ChannelID * ChannelShim)) : M unit :=
  range it (λ '(_, c), emit (EvGo (ID (Descriptor c)) (OutCh c))).

(** ** GetChannels *)

(** The loop [descriptors[i] = c.Descriptor; i++]; a store outside the
    slice panics. *)
Fixpoint GetChannels_loop (it : list (ChannelID * ChannelShim))
    (descriptors : list (option ChannelDescriptor)) (i : nat)
    : M (list (option ChannelDescriptor)) :=
  match it with
  | [] => mret descriptors
  | (_, c) :: it =>
    if decide (i < length descriptors)
    then GetChannels_loop it (<[i := Some (Descriptor c)]> descriptors) (S i)
    else panic "index out of range"
  end.

(** The slice of pointers starts as [len(rs.Channels)] nil entries. *)
Definition GetChannels (it : list (ChannelID * ChannelShim))
    : M (list (option ChannelDescriptor)) :=
  rs ← get_self;
  let descriptors := replicate (size (Channels rs)) None in
  GetChannels_loop it descriptors 0.

(** ** OnStart and OnStop *)

Definition OnStart (it : list (ChannelID * ChannelShim)) : M (option error) :=
  rs ← get_self;
  (if IsRunning (base rs) then proxyPeerEnvelopes it else mret tt) ;;
  mret None.

Definition OnStop (it : list (ChannelID * ChannelShim)) : M unit :=
  range it (λ '(_, cs),
    err ← Channel_Close (cs_Channel cs);
    match err with
    | Some _ => Logger_Error "failed to close channel"
    | None => mret tt
    end) ;;
  rs ← get_self;
  close (PeerUpdateCh rs).

(** ** AddPeer and RemovePeer *)

Definition AddPeer (peer : Peer) (ready : bool) : M unit :=
  rs ← get_self;
  let '(peerID, err) := PeerIDFromString (Peer_ID peer) in
  match err with
  | Some err => panic err
  | None =>
    select_send (PeerUpdateCh rs)
      (EvPeerUpdate (PeerUpdateCh rs)
         {| upd_PeerID := peerID; Status := PeerStatusUp |})
      ready
      (Logger_Debug "sent peer update")
      (Logger_Debug "dropped peer update")
  end.

Definition RemovePeer {R} (peer : Peer) (reason : R) (ready : bool) : M unit :=
  rs ← get_self;
  let '(peerID, err) := PeerIDFromString (Peer_ID peer) in
  match err with
  | Some err => panic err
  | None =>
    select_send (PeerUpdateCh rs)
      (EvPeerUpdate (PeerUpdateCh rs)
         {| upd_PeerID := peerID; Status := PeerStatusDown |})
      ready
      (Logger_Debug "sent peer update")
      (Logger_Debug "dropped peer update")
  end.

(** ** Receive *)

Definition Receive (chID : byte) (src : Peer) (msgBytes : list byte)
    (ready : bool) : M unit :=
  rs ← get_self;
  if negb (IsRunning (base rs)) then mret tt else
  let cID := ChannelID_of_byte chID in
  match Channels rs !! cID with
  | None => Logger_Error "unexpected channel"
  | Some channelShim =>
    let msg := proto_Reset (proto_Clone (messageType (cs_Channel channelShim))) in
    let '(msg, err) := proto_Unmarshal msgBytes msg in
    match err with
    | Some err =>
      Logger_Error "error decoding message" ;;
      match rs_MessageValidator rs with
      | Some v => OnUnmarshalFailure v chID src msgBytes err
      | None => mret tt
      end
    | None =>
      verdict ← match rs_MessageValidator rs with
                | Some v => call_Validate v chID src msgBytes msg
                | None => mret None
                end;
      match verdict with
      | Some _ => Logger_Error "invalid message"
      | None =>
        let '(peerID, err) := PeerIDFromString (Peer_ID src) in
        match err with
        | Some err => panic err
        | None =>
          select_send (InCh channelShim)
            (EvEnvelope (InCh channelShim)
               {| From := peerID; To := PeerID_zero; Message := msg |})
            ready
            (Logger_Debug "proxied envelope")
            (Logger_Debug "dropped envelope")
        end
      end
    end
  end.

(** ** The calls a shim receives during its lifetime *)

Inductive Call :=
  | CallReceive (chID : byte) (src : Peer) (msgBytes : list byte) (ready : bool)
  | CallAddPeer (peer : Peer) (ready : bool)
  | CallRemovePeer (peer : Peer) (reason : string) (ready : bool)
  | CallOnStart (it : list (ChannelID * ChannelShim))
  | CallOnStop (it : list (ChannelID * ChannelShim))
  | CallGetChannels (it : list (ChannelID * ChannelShim))
  (* one round of the proxy task of a channel *)
  | CallProxy (chID : byte) (e : Envelope).

Definition call (c : Call) : M unit :=
  match c with
  | CallReceive chID src msgBytes ready => Receive chID src msgBytes ready
  | CallAddPeer peer ready => AddPeer peer ready
  | CallRemovePeer peer reason ready => RemovePeer peer reason ready
  | CallOnStart it => OnStart it ;; mret tt
  | CallOnStop it => OnStop it
  | CallGetChannels it => GetChannels it ;; mret tt
  | CallProxy chID e => proxyEnvelope chID e
  end.

(** A call that ranges over the channel map does so in one of the orders
    the map allows. *)
Definition legal (s : State) (c : Call) : Prop :=
  match c with
  | CallOnStart it | CallOnStop it | CallGetChannels it =>
    map_range (Channels (self s)) it
  | _ => True
  end.

(** The calls of a list one after the other; a panic ends the run. *)
Definition calls (cs : list Call) : M unit := range cs call.

(** The framework starts and stops the base reactor and connects and
    disconnects peers. *)
Definition set_base (br : BaseReactor) (s : State) : State :=
  {| self := {| base := br;
                Name := Name (self s);
                PeerUpdateCh := PeerUpdateCh (self s);
                Channels := Channels (self s);
                rs_MessageValidator := rs_MessageValidator (self s) |};
     closed := closed s;
     trace := trace s |}.

(** [reaches s0 s]: the program gets from [s0] to [s] by calls of the shim
    and moves of the framework. *)
Inductive reaches (s0 : State) : State → Prop :=
  | reaches_refl : reaches s0 s0
  | reaches_call s c :
      reaches s0 s → legal s c → reaches s0 (final (call c s))
  | reaches_set_base s br :
      reaches s0 s → reaches s0 (set_base br s).

(** The states in the lifetime of a shim built by [NewShim]. *)
Definition reachable (s : State) : Prop :=
  ∃ name descriptors msgVal, reaches (NewShim name descriptors msgVal) s.

(** ** What a trace shows *)

(** The events of [s'] that came after [s]. *)
Definition since (s s' : State) : list Event :=
  drop (length (trace s)) (trace s').

Definition envelopes (t : list Event) : list (chan_ref * Envelope) :=
  omap (λ ev, match ev with EvEnvelope ch e => Some (ch, e) | _ => None end) t.

Definition peer_updates (t : list Event) : list (chan_ref * PeerUpdate) :=
  omap (λ ev, match ev with EvPeerUpdate ch u => Some (ch, u) | _ => None end) t.

Definition unmarshal_failures (t : list Event)
    : list (byte * Peer * list byte * error) :=
  omap (λ ev, match ev with
              | EvOnUnmarshalFailure chID src bz err => Some (chID, src, bz, err)
              | _ => None
              end) t.

Definition validations (t : list Event)
    : list (byte * Peer * list byte * proto_Message) :=
  omap (λ ev, match ev with
              | EvValidate chID src bz msg => Some (chID, src, bz, msg)
              | _ => None
              end) t.

Definition sends (t : list Event) : list (Peer * byte * list byte) :=
  omap (λ ev, match ev with EvSend p chID bz => Some (p, chID, bz) | _ => None end) t.

Definition error_logs (t : list Event) : list string :=
  omap (λ ev, match ev with EvLog LvlError msg => Some msg | _ => None end) t.

Definition handle_closes (t : list Event) : list Channel :=
  omap (λ ev, match ev with EvChannelClose c => Some c | _ => None end) t.

Definition chan_closes (t : list Event) : list chan_ref :=
  omap (λ ev, match ev with EvClose ch => Some ch | _ => None end) t.

(** ** The vocabulary of the properties *)

(** The [ChannelShim] that the round of [NewShim]'s loop starting at channel
    identity [next] builds from [cds]. *)
Definition shim_at (next : chan_ref) (cds : ChannelDescriptorShim) : ChannelShim :=
  let cID := ChannelID_of_byte (ID (cds_Descriptor cds)) in
  {| Descriptor := cds_Descriptor cds;
     cs_Channel := NewChannel cID (MsgType cds) next (S next) (S (S next));
     InCh := next;
     OutCh := S next;
     PeerErrCh := S (S next) |}.

Definition cID_of (cds : ChannelDescriptorShim) : ChannelID :=
  ChannelID_of_byte (ID (cds_Descriptor cds)).

(** The map entries written by the loop, in the order they are written. *)
Fixpoint built (descriptors : list ChannelDescriptorShim) (next : chan_ref)
    : list (ChannelID * ChannelShim) :=
  match descriptors with
  | [] => []
  | cds :: descriptors =>
    (cID_of cds, shim_at next cds) :: built descriptors (S (S (S next)))
  end.

(** *** Frames and invariants *)

(** A computation is [framed] when it leaves the struct as it is, only adds
    to the trace, and closes no channel but the peer-update channel. *)
Definition framed {A} (c : M A) : Prop :=
  ∀ s, self (final (c s)) = self s
       ∧ (∃ t, trace (final (c s)) = trace s ++ t)
       ∧ closed (final (c s)) ⊆ closed s ∪ {[PeerUpdateCh (self s)]}.

(** Only the peer-update channel is ever closed, and it is none of the
    inbound endpoints. *)
Definition endpoints_open (s : State) : Prop :=
  closed s ⊆ {[PeerUpdateCh (self s)]}
  ∧ ∀ k c, Channels (self s) !! k = Some c → InCh c < PeerUpdateCh (self s).

(** *** Receive *)

(** Lines 193 to 196: the message [Receive] decodes from [msgBytes] on the
    channel of [c], and the error of [proto.Unmarshal]. *)
Definition decoded (c : ChannelShim) (msgBytes : list byte)
    : proto_Message * option error :=
  proto_Unmarshal msgBytes (proto_Reset (proto_Clone (messageType (cs_Channel c)))).

(** Lines 205 to 210: what the configured validator, if any, says. *)
Definition verdict (rs : ReactorShim) (chID : byte) (src : Peer)
    (msgBytes : list byte) (msg : proto_Message) : option error :=
  match rs_MessageValidator rs with
  | Some v => Validate v chID src msgBytes msg
  | None => None
  end.

Definition validation_events (rs : ReactorShim) (chID : byte) (src : Peer)
    (msgBytes : list byte) (msg : proto_Message) : list Event :=
  match rs_MessageValidator rs with
  | Some _ => [EvValidate chID src msgBytes msg]
  | None => []
  end.

(** The envelope [Receive] builds from a decoded message. *)
Definition inbound (src : Peer) (msg : proto_Message) : Envelope :=
  {| From := (PeerIDFromString (Peer_ID src)).1;
     To := PeerID_zero;
     Message := msg |}.

(** The sentence of the spec on accepted messages, read for every call: a
    configured channel, bytes that decode, no objection of the validator;
    then one envelope on the inbound endpoint if a receiver is ready, none
    otherwise. *)
Definition accepted_is_delivered (s : State) (chID : byte) (src : Peer)
    (msgBytes : list byte) (ready : bool) : Prop :=
  ∀ c msg,
    Channels (self s) !! ChannelID_of_byte chID = Some c →
    decoded c msgBytes = (msg, None) →
    verdict (self s) chID src msgBytes msg = None →
    envelopes (since s (final (Receive chID src msgBytes ready s)))
    = if ready then [(InCh c, inbound src msg)] else [].

(** The sentence of the spec on malformed bytes, read for every call. *)
Definition undecodable_is_reported (s : State) (chID : byte) (src : Peer)
    (msgBytes : list byte) (ready : bool) : Prop :=
  ∀ c msg err,
    Channels (self s) !! ChannelID_of_byte chID = Some c →
    decoded c msgBytes = (msg, Some err) →
    let o := Receive chID src msgBytes ready s in
    (is_Some (rs_MessageValidator (self s)) →
     unmarshal_failures (since s (final o)) = [(chID, src, msgBytes, err)])
    ∧ envelopes (since s (final o)) = []
    ∧ returns o = true.

(** The sentence of the spec on unconfigured channel IDs, read for every
    call. *)
Definition unknown_is_logged (s : State) (chID : byte) (src : Peer)
    (msgBytes : list byte) (ready : bool) : Prop :=
  Channels (self s) !! ChannelID_of_byte chID = None →
  let o := Receive chID src msgBytes ready s in
  error_logs (since s (final o)) = ["unexpected channel"]
  ∧ envelopes (since s (final o)) = []
  ∧ unmarshal_failures (since s (final o)) = []
  ∧ validations (since s (final o)) = []
  ∧ returns o = true.

(** *** AddPeer, RemovePeer and OnStop *)

Definition update_events (ch : chan_ref) (u : PeerUpdate) (ready : bool)
    : list Event :=
  if ready
  then [EvPeerUpdate ch u; EvLog LvlDebug "sent peer update"]
  else [EvLog LvlDebug "dropped peer update"].

(** The sentence of the spec on [AddPeer] followed by [RemovePeer], read for
    every state of the shim: each update is delivered if a receiver is
    ready and dropped otherwise, and both calls return. *)
Definition up_then_down (s : State) (peer : Peer) (reason : string)
    (ready1 ready2 : bool) : Prop :=
  ∀ peerID,
    PeerIDFromString (Peer_ID peer) = (peerID, None) →
    let o := (AddPeer peer ready1 ;; RemovePeer peer reason ready2) s in
    returns o = true
    ∧ peer_updates (since s (final o))
      = (if ready1
         then [(PeerUpdateCh (self s),
                {| upd_PeerID := peerID; Status := PeerStatusUp |})]
         else [])
        ++ (if ready2
            then [(PeerUpdateCh (self s),
                   {| upd_PeerID := peerID; Status := PeerStatusDown |})]
            else []).

(** What closing one handle leaves in the trace. *)
Definition close_events (c : Channel) : list Event :=
  EvChannelClose c
    :: match Channel_Close_err c with
       | Some _ => [EvLog LvlError "failed to close channel"]
       | None => []
       end.

Definition OnStop_loop_events (it : list (ChannelID * ChannelShim)) : list Event :=
  flat_map (λ kc, close_events (cs_Channel kc.2)) it.

(** The sentence of the spec that shutdown always completes, read for every
    state of the shim. *)
Definition OnStop_completes (s : State) (it : list (ChannelID * ChannelShim))
    : Prop :=
  map_range (Channels (self s)) it → returns (OnStop it s) = true.

(** *** GetChannels *)

Definition same_set {A} (l1 l2 : list A) : Prop := ∀ x, x ∈ l1 ↔ x ∈ l2.

(** The sentence of the spec on enumeration, read for every list of
    descriptors. *)
Definition enumerates_configured (name : string)
    (ds : list ChannelDescriptorShim) (v : option MessageValidator)
    (it : list (ChannelID * ChannelShim)) : Prop :=
  let s := NewShim name ds v in
  map_range (Channels (self s)) it →
  ∃ out s', GetChannels it s = Done out s'
            ∧ same_set out (Some <$> (cds_Descriptor <$> ds)).

(** ** The vocabulary of the further properties *)

Definition tasks (t : list Event) : list (byte * chan_ref) :=
  omap (λ ev, match ev with EvGo chID out => Some (chID, out) | _ => None end) t.

(** The three Go channels of a [ChannelShim]. *)
Definition endpoints (c : ChannelShim) : list chan_ref :=
  [InCh c; OutCh c; PeerErrCh c].

(** An entry of the channel map as [NewShim] writes it: the key is the ID
    of the descriptor, and the handle is bound to that ID and to the
    endpoints of the shim. *)
Definition wired (k : ChannelID) (c : ChannelShim) : Prop :=
  k = ChannelID_of_byte (ID (Descriptor c))
  ∧ ch_ID (cs_Channel c) = k
  ∧ inCh (cs_Channel c) = InCh c
  ∧ outCh (cs_Channel c) = OutCh c
  ∧ errCh (cs_Channel c) = PeerErrCh c.

(** The events that concern a Go channel or a handle name one that belongs
    to the shim [rs]: envelopes go to the inbound endpoint of a channel of
    the map and carry no destination, peer updates go to, and closes are
    of, the peer-update channel, tasks and handle closes are those of a
    channel of the map. *)
Definition shim_event (rs : ReactorShim) (ev : Event) : Prop :=
  match ev with
  | EvEnvelope ch e =>
    To e = PeerID_zero ∧ ∃ k c, Channels rs !! k = Some c ∧ ch = InCh c
  | EvPeerUpdate ch _ => ch = PeerUpdateCh rs
  | EvClose ch => ch = PeerUpdateCh rs
  | EvGo chID out =>
    ∃ k c, Channels rs !! k = Some c ∧ chID = ID (Descriptor c) ∧ out = OutCh c
  | EvChannelClose h => ∃ k c, Channels rs !! k = Some c ∧ h = cs_Channel c
  | _ => True
  end.

(** Either the shim has closed no Go channel, or it has closed the
    peer-update channel, by the one [close] of the trace. *)
Definition closed_at_most_once (s : State) : Prop :=
  (closed s = ∅ ∧ chan_closes (trace s) = [])
  ∨ (closed s = {[PeerUpdateCh (self s)]}
     ∧ chan_closes (trace s) = [PeerUpdateCh (self s)]).

(** The envelope [Receive] hands over for an accepted message. *)
Definition envelope_from (peerID : PeerID) (msg : proto_Message) : Envelope :=
  {| From := peerID; To := PeerID_zero; Message := msg |}.

(** An envelope that the proxy task can send: its destination is peer [p]
    of the registry and its message encodes to [bz]. *)
Definition sendable (s : State) (e : Envelope) (p : Peer) (bz : list byte)
    : Prop :=
  Switch_peers (base (self s)) !! PeerID_String (To e) = Some p
  ∧ proto_Marshal (Message e) = (bz, None).

(** An envelope on which the proxy task panics. *)
Definition unsendable (s : State) (e : Envelope) : Prop :=
  Switch_peers (base (self s)) !! PeerID_String (To e) = None
  ∨ ∃ bz err, proto_Marshal (Message e) = (bz, Some err).

(** A call of [Receive] that gets as far as the delivery attempt: the
    channel is [c], the message decodes to [msg], the validator has no
    objection and the peer has the identity [peerID]. *)
Definition acceptable (s : State) (chID : byte) (src : Peer)
    (msgBytes : list byte) (c : ChannelShim) (msg : proto_Message)
    (peerID : PeerID) : Prop :=
  Channels (self s) !! ChannelID_of_byte chID = Some c
  ∧ decoded c msgBytes = (msg, None)
  ∧ verdict (self s) chID src msgBytes msg = None
  ∧ PeerIDFromString (Peer_ID src) = (peerID, None).

(** The event of [RemovePeer] that corresponds to an event of [AddPeer]:
    the update says Down. *)
Definition as_down (ev : Event) : Event :=
  match ev with
  | EvPeerUpdate ch u =>
    EvPeerUpdate ch {| upd_PeerID := upd_PeerID u; Status := PeerStatusDown |}
  | _ => ev
  end.

(** The task that [proxyPeerEnvelopes] starts for an entry of the map. *)
Definition task_of (kc : ChannelID * ChannelShim) : byte * chan_ref :=
  (ID (Descriptor kc.2), OutCh kc.2).

(** The state after a [close] of the peer-update channel that follows the
    events [t]. *)
Definition close_after (t : list Event) (s : State) : State :=
  {| self := self s;
     closed := {[PeerUpdateCh (self s)]} ∪ closed s;
     trace := trace s ++ t ++ [EvClose (PeerUpdateCh (self s))] |}.

(** The sends of a proxy task on the legacy ID [chID], one for each peer
    and payload of [ps]. *)
Definition send_events (chID : byte) (ps : list (Peer * list byte))
    : list Event :=
  (λ pb, EvSend pb.1 chID pb.2) <$> ps.

(** The arguments of one call of [Receive], with the readiness of a
    receiver at its delivery attempt. *)
Record Arrival := {
  arr_chID : byte;
  arr_src : Peer;
  arr_bytes : list byte;
  arr_ready : bool
}.

(** What an accepted arrival resolves to: its channel, its message and the
    identity of its source. *)
Record Accepted := {
  acc_shim : ChannelShim;
  acc_msg : proto_Message;
  acc_peerID : PeerID
}.

(** The legacy transport calls [Receive] for one arrival after the other. *)
Definition Receive_all (xs : list Arrival) : M unit :=
  range xs (λ x, Receive (arr_chID x) (arr_src x) (arr_bytes x) (arr_ready x)).

(** The delivery of an accepted arrival, if a receiver is ready for it. *)
Definition delivery (x : Arrival) (y : Accepted)
    : option (chan_ref * Envelope) :=
  if arr_ready x
  then Some (InCh (acc_shim y), envelope_from (acc_peerID y) (acc_msg y))
  else None.

(** *** The proxy tasks at work *)

(** The goroutine that a [go] statement of [proxyPeerEnvelopes] starts: the
    function literal on the two arguments it was given, the legacy ID and
    the outbound endpoint. The task receives what is sent on that endpoint:
    [sent outCh] are the envelopes sent on [outCh] until it is closed, in
    the order they are sent. *)
Definition go_proxy (sent : chan_ref → list Envelope) (task : byte * chan_ref)
    : M unit :=
  proxyTask task.1 (sent task.2).

(** The tasks of [ts] that receive from the Go channel [out]. *)
Definition draining (out : chan_ref) (ts : list (byte * chan_ref))
    : list (byte * chan_ref) :=
  filter (λ t, t.2 = out) ts.

End Shim.

(** * A shim to run

    An instance of the external services to run the shim on: messages are
    byte strings, encoded with one byte of length in front; peer identities
    are byte strings, written in hexadecimal. *)
Module Demo.

Definition framed_Unmarshal (bz : list byte) (m : list byte)
    : list byte * option error :=
  match bz with
  | n :: payload =>
    if decide (Byte.to_N n = N.of_nat (length payload))
    then (payload, None)
    else (m, Some "unexpected EOF")
  | [] => (m, Some "unexpected EOF")
  end.

Definition framed_Marshal (m : list byte) : list byte * option error :=
  match Byte.of_N (N.of_nat (length m)) with
  | Some n => (n :: m, None)
  | None => ([], Some "message too long")
  end.

Global Instance framed_codec : ProtoCodec (list byte) := {|
  proto_Clone := id;
  proto_Reset := λ _, [];
  proto_Unmarshal := framed_Unmarshal;
  proto_Marshal := framed_Marshal
|}.

Definition hex_value (c : Ascii.ascii) : option N :=
  let n := Ascii.N_of_ascii c in
  if ((48 <=? n) && (n <=? 57))%N then Some (n - 48)%N
  else if ((97 <=? n) && (n <=? 102))%N then Some (n - 87)%N
  else if ((65 <=? n) && (n <=? 70))%N then Some (n - 55)%N
  else None.

Fixpoint hex_decode (s : string) : option (list byte) :=
  match s with
  | EmptyString => Some []
  | String _ EmptyString => None
  | String a (String b rest) =>
    hi ← hex_value a;
    lo ← hex_value b;
    x ← Byte.of_N (16 * hi + lo)%N;
    (x ::.) <$> hex_decode rest
  end.

Definition hex_digit (n : N) : Ascii.ascii :=
  Ascii.ascii_of_N (if (n <? 10)%N then 48 + n else 87 + n)%N.

Fixpoint hex_encode (bz : list byte) : string :=
  match bz with
  | [] => EmptyString
  | x :: bz =>
    String (hex_digit (Byte.to_N x / 16)%N)
      (String (hex_digit (Byte.to_N x mod 16)%N) (hex_encode bz))
  end.

Global Instance hex_identity : PeerIdentity (list byte) := {|
  PeerIDFromString := λ s,
    match hex_decode s with
    | Some bz => (bz, None)
    | None => ([], Some "invalid peer ID")
    end;
  PeerID_String := hex_encode;
  PeerID_zero := []
|}.

(** Two descriptors with different IDs, and a third that shares the ID of
    the first. *)
Definition votes : ChannelDescriptor :=
  {| ID := x20; Priority := 5; SendQueueCapacity := 100;
     RecvBufferCapacity := 1024; RecvMessageCapacity := 4096 |}.

Definition blocks : ChannelDescriptor :=
  {| ID := x21; Priority := 10; SendQueueCapacity := 10;
     RecvBufferCapacity := 1024; RecvMessageCapacity := 65536 |}.

Definition votes_again : ChannelDescriptor :=
  {| ID := x20; Priority := 7; SendQueueCapacity := 100;
     RecvBufferCapacity := 1024; RecvMessageCapacity := 4096 |}.

Definition shim_of (d : ChannelDescriptor)
    : ChannelDescriptorShim (proto_Message := list byte) :=
  {| MsgType := []; cds_Descriptor := d |}.

(** A validator that rejects empty messages. *)
Definition no_empty : MessageValidator (proto_Message := list byte) :=
  {| Validate := λ _ _ _ (msg : list byte),
       match msg with [] => Some "empty message" | _ => None end |}.

Definition alice : Peer := {| Peer_ID := "0a1b"; Peer_Send := λ _ _, true |}.

(** A peer whose legacy identity is no hexadecimal string. *)
Definition mallory : Peer := {| Peer_ID := "zz"; Peer_Send := λ _ _, false |}.

(** Closing the handle of channel 0x21 fails, the others close. *)
Global Instance close_err : ChannelClose (proto_Message := list byte) := λ c,
  if decide (ch_ID c = 33%N) then Some "already closed" else None.

(** The shim as constructed, and after the framework has started it and
    connected [alice]. *)
Definition demo : Type := State (proto_Message := list byte) (PeerID := list byte).

Definition fresh : demo :=
  NewShim "demo" [shim_of votes; shim_of blocks] (Some no_empty).

Definition started : BaseReactor :=
  {| IsRunning := true; Switch_peers := {["0a1b" := alice]} |}.

Definition running : demo := set_base started fresh.

Definition order (s : demo) := map_to_list (Channels (self s)).

(** The shim when the framework has connected [alice] but the reactor is
    not running. *)
Definition idle : BaseReactor :=
  {| IsRunning := false; Switch_peers := {["0a1b" := alice]} |}.

Definition halted : demo := set_base idle fresh.

(** The shim after a stop: the framework clears the running flag and calls
    [OnStop]. *)
Definition stopped : demo := final (OnStop (order halted) halted).

Definition votes_shim : ChannelShim (proto_Message := list byte) :=
  shim_at 0 (shim_of votes).

Definition to_alice : Envelope :=
  {| From := []; To := [x0a; x1b]; Message := [xaa] |}.

Definition to_nobody : Envelope :=
  {| From := []; To := [xff]; Message := [xaa] |}.

(** A message too long for the length byte of the codec. *)
Definition too_long : Envelope :=
  {| From := []; To := [x0a; x1b]; Message := replicate 256 x00 |}.

(** Two descriptors with the ID 0x20: only the second is returned. *)
Definition twice : demo := NewShim "demo" [shim_of votes; shim_of votes_again] None.

(** A life of the shim: a message, a peer, shutdown, and a late peer (whose
    update panics). *)
Definition life : list (Call (proto_Message := list byte) (PeerID := list byte)) :=
  [CallReceive x20 alice [x02; xaa; xbb] true;
   CallAddPeer alice false;
   CallOnStop (order running);
   CallAddPeer alice true].

Definition blocks_shim : ChannelShim (proto_Message := list byte) :=
  shim_at 3 (shim_of blocks).

(** What the embedding reactor sends on the outbound endpoint of channel
    0x20 before shutdown: an envelope for [alice], one for a peer that is
    not connected, and another for [alice]. It sends nothing on the other
    channels. *)
Definition outbox (ch : chan_ref) : list Envelope :=
  if decide (ch = 1) then [to_alice; to_nobody; to_alice] else [].

(** The running shim after one delivered message. *)
Definition delivered_once : demo :=
  final (Receive x20 alice [x02; xaa; xbb] true running).

(** Three arrivals, the second without a receiver, and what they resolve
    to. *)
Definition arrivals : list Arrival :=
  [{| arr_chID := x20; arr_src := alice; arr_bytes := [x02; xaa; xbb];
      arr_ready := true |};
   {| arr_chID := x21; arr_src := alice; arr_bytes := [x01; xcc];
      arr_ready := false |};
   {| arr_chID := x20; arr_src := alice; arr_bytes := [x01; xdd];
      arr_ready := true |}].

Definition resolved : list (Accepted (proto_Message := list byte) (PeerID := list byte)) :=
  [{| acc_shim := votes_shim; acc_msg := [xaa; xbb]; acc_peerID := [x0a; x1b] |};
   {| acc_shim := blocks_shim; acc_msg := [xcc]; acc_peerID := [x0a; x1b] |};
   {| acc_shim := votes_shim; acc_msg := [xdd]; acc_peerID := [x0a; x1b] |}].

End Demo.

(** * Properties *)

Section Properties.

Context {proto_Message PeerID : Type}.
Context `{!ProtoCodec proto_Message} `{!PeerIdentity PeerID}.
Context `{!ChannelClose (proto_Message := proto_Message)}.

Implicit Types
  (s : State (proto_Message := proto_Message) (PeerID := PeerID))
  (ds : list (ChannelDescriptorShim (proto_Message := proto_Message)))
  (cds : ChannelDescriptorShim (proto_Message := proto_Message))
  (it : list (ChannelID * ChannelShim (proto_Message := proto_Message)))
  (e : Envelope (proto_Message := proto_Message) (PeerID := PeerID)).

(* The section's types, where a statement does not fix them. *)
Local Abbreviation NewShim := (NewShim (PeerID := PeerID)).
Local Abbreviation framed :=
  (framed (proto_Message := proto_Message) (PeerID := PeerID)).
Local Abbreviation OnStop_loop_events :=
  (OnStop_loop_events (PeerID := PeerID)).

(** ** Construction *)

Global Instance ChannelID_of_byte_inj : Inj (=) (=) ChannelID_of_byte.
Proof.
  intros a b E. unfold ChannelID_of_byte in E.
  assert (Some a = Some b) as [= ->]; [|done].
  by rewrite <-!Byte.of_to_N, E.
Qed.

Lemma built_fst ds next : (built ds next).*1 = cID_of <$> ds.
Proof.
  revert next. induction ds as [|d ds IH]; intros next; simpl; [done|].
  by rewrite IH.
Qed.

Lemma built_length ds next : length (built ds next) = length ds.
Proof. by rewrite <-(length_fmap fst), built_fst, length_fmap. Qed.

Lemma built_descriptors ds next :
  (Descriptor ∘ snd) <$> built ds next = cds_Descriptor <$> ds.
Proof.
  revert next. induction ds as [|d ds IH]; intros next; simpl; [done|].
  by rewrite IH.
Qed.

Lemma built_app ds1 ds2 next :
  built (ds1 ++ ds2) next = built ds1 next ++ built ds2 (3 * length ds1 + next).
Proof.
  revert next. induction ds1 as [|d ds1 IH]; intros next; simpl; [done|].
  rewrite IH. do 3 f_equal. lia.
Qed.

(** The loop writes the entries of [built] into the map, later ones over
    earlier ones, and hands out three channels a round. *)
Lemma NewShim_loop_spec ds next m :
  NewShim_loop ds next m
  = (list_to_map (reverse (built ds next)) ∪ m, 3 * length ds + next).
Proof.
  revert next m. induction ds as [|d ds IH]; intros next m; simpl.
  - by rewrite (left_id_L ∅ (∪)).
  - rewrite IH. f_equal; [|lia].
    rewrite reverse_cons, list_to_map_app. simpl.
    rewrite insert_empty, <-(assoc_L (∪)).
    by rewrite <-insert_union_singleton_l.
Qed.

Lemma NewShim_Channels name ds v :
  Channels (self (NewShim name ds v)) = list_to_map (reverse (built ds 0)).
Proof.
  unfold NewShim. rewrite NewShim_loop_spec. simpl.
  by rewrite (right_id_L ∅ (∪)).
Qed.

Lemma NewShim_PeerUpdateCh name ds v :
  PeerUpdateCh (self (NewShim name ds v)) = 3 * length ds.
Proof. unfold NewShim. rewrite NewShim_loop_spec. simpl. lia. Qed.

(** The channel identities of a constructed shim: channel [i]'s endpoints
    are below the peer-update channel, which is made last. *)
Lemma built_InCh_lt ds next k c :
  (k, c) ∈ built ds next → next ≤ InCh c < 3 * length ds + next.
Proof.
  revert next. induction ds as [|d ds IH]; intros next; simpl.
  - by intros ?%elem_of_nil.
  - intros [[= -> ->]|Hin%IH]%elem_of_cons; simpl; lia.
Qed.

Lemma NewShim_lookup_built name ds v k c :
  Channels (self (NewShim name ds v)) !! k = Some c → (k, c) ∈ built ds 0.
Proof.
  rewrite NewShim_Channels. intros Hin%elem_of_list_to_map_2.
  by rewrite elem_of_reverse in Hin.
Qed.

Lemma remove_dups_length_le {A} `{EqDecision A} (l : list A) :
  length (remove_dups l) ≤ length l.
Proof.
  induction l as [|x l IH]; simpl; [done|].
  destruct (decide_rel _ _ _); simpl; lia.
Qed.

Lemma remove_dups_length_lt {A} `{EqDecision A} (l : list A) :
  ¬ NoDup l → length (remove_dups l) < length l.
Proof.
  induction l as [|x l IH]; simpl; intros Hdup.
  - destruct Hdup. constructor.
  - destruct (decide_rel _ _ _) as [Hin|Hin]; simpl.
    + pose proof (remove_dups_length_le l). lia.
    + assert (¬ NoDup l) as Hl by (intros Hnd; apply Hdup; by constructor).
      specialize (IH Hl). lia.
Qed.

Lemma size_list_to_map_reverse {V} (l : list (ChannelID * V)) :
  size (list_to_map (M := gmap ChannelID V) (reverse l))
  = length (remove_dups l.*1).
Proof.
  rewrite <-size_dom, dom_list_to_map_L.
  rewrite <-(size_list_to_set (C := gset ChannelID) (remove_dups l.*1))
    by apply NoDup_remove_dups.
  f_equal. apply set_eq. intros k.
  rewrite !elem_of_list_to_set, elem_of_remove_dups, fmap_reverse.
  apply elem_of_reverse.
Qed.

(** ** GetChannels *)

Lemma GetChannels_loop_spec it pre s :
  GetChannels_loop it (pre ++ replicate (length it) None) (length pre) s
  = Done (pre ++ ((Some ∘ Descriptor ∘ snd) <$> it)) s.
Proof.
  revert pre. induction it as [|[k c] it IH]; intros pre; simpl.
  - done.
  - rewrite decide_True by (rewrite length_app; simpl; lia).
    rewrite insert_app_r_alt by lia.
    rewrite Nat.sub_diag. simpl.
    replace (S (length pre)) with (length (pre ++ [Some (Descriptor c)]))
      by (rewrite length_app; simpl; lia).
    rewrite (cons_middle _ pre), (assoc_L (++)).
    rewrite IH. by rewrite <-(assoc_L (++)).
Qed.

(** Ranging over the map in any of its orders, [GetChannels] returns, and
    returns the descriptors of the map's shims in that order; the state is
    as before. *)
Lemma GetChannels_spec it s :
  map_range (Channels (self s)) it →
  GetChannels it s = Done ((Some ∘ Descriptor ∘ snd) <$> it) s.
Proof.
  intros Hit. unfold GetChannels, mbind, M_bind, get_self.
  replace (size (Channels (self s))) with (length it).
  - apply (GetChannels_loop_spec it []).
  - rewrite Hit. by rewrite length_map_to_list.
Qed.

(** ** What no method changes *)

Lemma framed_ret {A} (a : A) : framed (mret a).
Proof.
  intros s. simpl. split_and!; [done| |apply union_subseteq_l].
  exists []. by rewrite (right_id_L [] (++)).
Qed.

Lemma framed_panic {A} v : framed (panic (A := A) v).
Proof.
  intros s. simpl. split_and!; [done| |apply union_subseteq_l].
  exists []. by rewrite (right_id_L [] (++)).
Qed.

Lemma framed_get_self : framed get_self.
Proof.
  intros s. simpl. split_and!; [done| |apply union_subseteq_l].
  exists []. by rewrite (right_id_L [] (++)).
Qed.

Lemma framed_emit (ev : Event) : framed (emit ev).
Proof.
  intros s. simpl. split_and!; [done|by eexists|apply union_subseteq_l].
Qed.

Lemma framed_bind {A B} (c : M A) (k : A → M B) :
  framed c → (∀ a, framed (k a)) → framed (c ≫= k).
Proof.
  intros Hc Hk s. unfold mbind, M_bind.
  destruct (Hc s) as (Hs & [t Ht] & Hcl).
  destruct (c s) as [a s1|v s1]; simpl in *.
  - destruct (Hk a s1) as (Hs' & [t' Ht'] & Hcl').
    split_and!.
    + congruence.
    + exists (t ++ t'). by rewrite Ht', Ht, (assoc_L (++)).
    + rewrite Hs in Hcl'. etrans; [exact Hcl'|].
      apply union_least; [done|apply union_subseteq_r].
  - split_and!; [done|by exists t|done].
Qed.

Lemma framed_range {A} (xs : list A) (body : A → M unit) :
  (∀ x, framed (body x)) → framed (range xs body).
Proof.
  intros Hb. induction xs as [|x xs IH]; simpl.
  - apply framed_ret.
  - apply framed_bind; auto.
Qed.

Lemma framed_select_send {A} ch ev ready (sent dflt : M A) :
  framed sent → framed dflt → framed (select_send ch ev ready sent dflt).
Proof.
  intros Hs Hd s. unfold select_send.
  destruct (decide _); [apply (framed_panic (A := A) "" s)|].
  destruct ready; [|apply Hd].
  apply (framed_bind (emit ev) (λ _, sent)); auto using framed_emit.
Qed.

Lemma framed_close_PeerUpdateCh :
  framed (rs ← get_self; close (PeerUpdateCh rs)).
Proof.
  intros s. unfold mbind, M_bind, get_self, close.
  destruct (decide _); simpl.
  - split_and!; [done| |apply union_subseteq_l].
    exists []. by rewrite (right_id_L [] (++)).
  - split_and!; [done|by eexists|by rewrite (comm_L (∪))].
Qed.

Create HintDb framed.
#[local] Hint Resolve framed_ret framed_panic framed_get_self framed_emit
  framed_select_send framed_close_PeerUpdateCh : framed.

(** Steps through the binds and case distinctions of a method. *)
Ltac framed_step :=
  match goal with
  | |- framed (_ ≫= _) => apply framed_bind; [|intros ?]
  | |- framed (range _ _) => apply framed_range; intros ?
  | |- framed (match ?x with _ => _ end) => destruct x
  | |- framed (if ?x then _ else _) => destruct x
  | |- framed (let '(_, _) := ?x in _) => destruct x
  | |- framed _ => solve [eauto with framed]
  end.

Lemma framed_Receive chID src msgBytes ready :
  framed (Receive chID src msgBytes ready).
Proof.
  unfold Receive, Logger_Error, Logger_Debug, OnUnmarshalFailure,
    call_Validate.
  repeat framed_step.
Qed.

Lemma framed_AddPeer peer ready : framed (AddPeer peer ready).
Proof. unfold AddPeer, Logger_Debug. repeat framed_step. Qed.

Lemma framed_RemovePeer {R} peer (reason : R) ready :
  framed (RemovePeer peer reason ready).
Proof. unfold RemovePeer, Logger_Debug. repeat framed_step. Qed.

Lemma framed_proxyEnvelope chID e : framed (proxyEnvelope chID e).
Proof. unfold proxyEnvelope, Send. repeat framed_step. Qed.

Lemma framed_OnStart it : framed (OnStart it).
Proof. unfold OnStart, proxyPeerEnvelopes. repeat framed_step. Qed.

Lemma framed_OnStop it : framed (OnStop it).
Proof.
  unfold OnStop, Channel_Close, Logger_Error.
  apply framed_bind; [|intros ?; apply framed_close_PeerUpdateCh].
  repeat framed_step.
Qed.

Lemma framed_GetChannels_loop it (out : list (option ChannelDescriptor)) i :
  framed (GetChannels_loop it out i).
Proof.
  revert out i. induction it as [|[k c] it IH]; intros out i; simpl.
  - apply framed_ret.
  - destruct (decide _); auto with framed.
Qed.

Lemma framed_GetChannels it : framed (GetChannels it).
Proof.
  unfold GetChannels. apply framed_bind; auto with framed.
  intros ?. apply framed_GetChannels_loop.
Qed.

Lemma framed_call c : framed (call c).
Proof.
  destruct c; simpl;
    auto using framed_Receive, framed_AddPeer, framed_RemovePeer,
      framed_OnStop, framed_proxyEnvelope.
  - apply framed_bind; auto using framed_OnStart with framed.
  - apply framed_bind; auto using framed_GetChannels with framed.
Qed.

(** ** The channels of a shim in its lifetime *)

Lemma endpoints_open_NewShim name ds v : endpoints_open (NewShim name ds v).
Proof.
  split.
  - unfold NewShim. destruct (NewShim_loop _ _ _). simpl. apply empty_subseteq.
  - intros k c Hkc%NewShim_lookup_built%built_InCh_lt.
    rewrite NewShim_PeerUpdateCh. lia.
Qed.

Lemma endpoints_open_framed {A} (c : M A) s :
  framed c → endpoints_open s → endpoints_open (final (c s)).
Proof.
  intros Hc [Hcl Hin]. destruct (Hc s) as (Hs & _ & Hcl').
  split; rewrite Hs; [|done].
  etrans; [exact Hcl'|]. by apply union_least.
Qed.

Lemma reaches_endpoints_open s0 s :
  endpoints_open s0 → reaches s0 s → endpoints_open s.
Proof.
  intros H0. induction 1 as [|s c _ IH _|s br _ IH].
  - done.
  - apply endpoints_open_framed; [apply framed_call|done].
  - exact IH.
Qed.

Lemma reachable_InCh_open s k c :
  reachable s → Channels (self s) !! k = Some c → InCh c ∉ closed s.
Proof.
  intros (name & ds & v & Hr) Hkc.
  destruct (reaches_endpoints_open _ _ (endpoints_open_NewShim name ds v) Hr)
    as [Hcl Hin].
  intros Hc%Hcl%elem_of_singleton. specialize (Hin _ _ Hkc). lia.
Qed.

(** ** Traces *)

Lemma add_events_nil s : add_events [] s = s.
Proof. destruct s. unfold add_events. simpl. by rewrite (right_id_L [] (++)). Qed.

Lemma add_events_app t1 t2 s :
  add_events t2 (add_events t1 s) = add_events (t1 ++ t2) s.
Proof. unfold add_events. simpl. by rewrite (assoc_L (++)). Qed.

Lemma since_add_events t s : since s (add_events t s) = t.
Proof. unfold since, add_events. simpl. by rewrite drop_app_length. Qed.

Lemma since_refl s : since s s = [].
Proof. unfold since. by rewrite drop_all. Qed.

(** ** Receive, branch by branch *)

Ltac run_Receive :=
  unfold Receive, decoded, verdict, validation_events, call_Validate,
    OnUnmarshalFailure, Logger_Error, Logger_Debug, select_send, emit,
    mbind, M_bind, mret, M_ret, get_self, panic in *.

Lemma Receive_stopped s chID src msgBytes ready :
  IsRunning (base (self s)) = false →
  Receive chID src msgBytes ready s = Done tt s.
Proof. intros Hrun. run_Receive. by rewrite Hrun. Qed.

Lemma Receive_unknown s chID src msgBytes ready :
  IsRunning (base (self s)) = true →
  Channels (self s) !! ChannelID_of_byte chID = None →
  Receive chID src msgBytes ready s
  = Done tt (add_events [EvLog LvlError "unexpected channel"] s).
Proof. intros Hrun Hch. run_Receive. by rewrite Hrun, Hch. Qed.

Lemma Receive_undecodable s chID src msgBytes ready c msg err :
  IsRunning (base (self s)) = true →
  Channels (self s) !! ChannelID_of_byte chID = Some c →
  decoded c msgBytes = (msg, Some err) →
  Receive chID src msgBytes ready s
  = Done tt (add_events
      (EvLog LvlError "error decoding message"
         :: match rs_MessageValidator (self s) with
            | Some _ => [EvOnUnmarshalFailure chID src msgBytes err]
            | None => []
            end) s).
Proof.
  intros Hrun Hch Hdec. run_Receive. rewrite Hrun, Hch. simpl. rewrite Hdec.
  simpl. destruct (rs_MessageValidator (self s)); [|done].
  by rewrite add_events_app.
Qed.

Lemma Receive_rejected s chID src msgBytes ready c msg err :
  IsRunning (base (self s)) = true →
  Channels (self s) !! ChannelID_of_byte chID = Some c →
  decoded c msgBytes = (msg, None) →
  verdict (self s) chID src msgBytes msg = Some err →
  Receive chID src msgBytes ready s
  = Done tt (add_events
      (validation_events (self s) chID src msgBytes msg
         ++ [EvLog LvlError "invalid message"]) s).
Proof.
  intros Hrun Hch Hdec Hv. run_Receive. rewrite Hrun, Hch. simpl. rewrite Hdec.
  destruct (rs_MessageValidator (self s)); [|done].
  simpl. rewrite Hv. by rewrite add_events_app.
Qed.

Lemma Receive_unparsable s chID src msgBytes ready c msg peerID err :
  IsRunning (base (self s)) = true →
  Channels (self s) !! ChannelID_of_byte chID = Some c →
  decoded c msgBytes = (msg, None) →
  verdict (self s) chID src msgBytes msg = None →
  PeerIDFromString (Peer_ID src) = (peerID, Some err) →
  Receive chID src msgBytes ready s
  = Panic err (add_events (validation_events (self s) chID src msgBytes msg) s).
Proof.
  intros Hrun Hch Hdec Hv Hid. run_Receive. rewrite Hrun, Hch. simpl.
  rewrite Hdec.
  destruct (rs_MessageValidator (self s)); simpl.
  - by rewrite Hv, Hid.
  - by rewrite Hid, add_events_nil.
Qed.

Lemma Receive_accepted s chID src msgBytes ready c msg peerID :
  IsRunning (base (self s)) = true →
  Channels (self s) !! ChannelID_of_byte chID = Some c →
  decoded c msgBytes = (msg, None) →
  verdict (self s) chID src msgBytes msg = None →
  PeerIDFromString (Peer_ID src) = (peerID, None) →
  InCh c ∉ closed s →
  Receive chID src msgBytes ready s
  = Done tt (add_events
      (validation_events (self s) chID src msgBytes msg
         ++ if ready
            then [EvEnvelope (InCh c)
                    {| From := peerID; To := PeerID_zero; Message := msg |};
                  EvLog LvlDebug "proxied envelope"]
            else [EvLog LvlDebug "dropped envelope"]) s).
Proof.
  intros Hrun Hch Hdec Hv Hid Hopen. run_Receive. rewrite Hrun, Hch. simpl.
  rewrite Hdec.
  destruct (rs_MessageValidator (self s)); simpl.
  - rewrite Hv, Hid. simpl. rewrite decide_False by done.
    destruct ready; by rewrite !add_events_app.
  - rewrite Hid. simpl. rewrite decide_False by done.
    destruct ready; by rewrite ?add_events_app.
Qed.

(** Reads the events of a finished call off its outcome. *)
Ltac read_trace :=
  simpl; rewrite ?since_add_events, ?since_refl;
  unfold validation_events in *;
  repeat match goal with
         | |- context [match ?x with _ => _ end] => destruct x
         end;
  try done.

(** *** Accepted messages *)

(** C1, amended: while the reactor is running, for a configured channel ID,
    bytes that decode, a validator (if configured) that accepts the message
    and a source peer whose string ID parses to a peer identity, [Receive]
    returns, and it delivers exactly one envelope, on that channel's inbound
    endpoint, with the decoded message and the derived identity, if a
    receiver is ready at the one delivery attempt; if none is ready it
    delivers no envelope, and does nothing more than log the drop. *)
Theorem Receive_delivers_one_envelope s chID src msgBytes ready c msg peerID :
  reachable s →
  IsRunning (base (self s)) = true →
  Channels (self s) !! ChannelID_of_byte chID = Some c →
  decoded c msgBytes = (msg, None) →
  verdict (self s) chID src msgBytes msg = None →
  PeerIDFromString (Peer_ID src) = (peerID, None) →
  let o := Receive chID src msgBytes ready s in
  returns o = true
  ∧ envelopes (since s (final o))
    = (if ready
       then [(InCh c, {| From := peerID; To := PeerID_zero; Message := msg |})]
       else [])
  ∧ (ready = false →
     since s (final o)
     = validation_events (self s) chID src msgBytes msg
         ++ [EvLog LvlDebug "dropped envelope"]).
Proof.
  intros Hreach Hrun Hch Hdec Hv Hid o. subst o.
  rewrite (Receive_accepted _ _ _ _ _ c msg peerID)
    by eauto using reachable_InCh_open.
  split_and!; [done| |intros ->; simpl; by rewrite since_add_events].
  read_trace.
Qed.

(** *** Bytes that do not decode *)

(** C3, amended: while the reactor is running, for a configured channel ID
    and bytes that fail to decode, the decode-failure hook of a configured
    validator is called exactly once, with the channel ID, the source peer,
    the raw bytes and the decode error; no envelope is delivered; and
    [Receive] returns. *)
Theorem Receive_reports_decode_failure s chID src msgBytes ready c msg err :
  IsRunning (base (self s)) = true →
  Channels (self s) !! ChannelID_of_byte chID = Some c →
  decoded c msgBytes = (msg, Some err) →
  let o := Receive chID src msgBytes ready s in
  (is_Some (rs_MessageValidator (self s)) →
   unmarshal_failures (since s (final o)) = [(chID, src, msgBytes, err)])
  ∧ envelopes (since s (final o)) = []
  ∧ returns o = true.
Proof.
  intros Hrun Hch Hdec o. subst o.
  rewrite (Receive_undecodable _ _ _ _ _ c msg err) by done.
  split_and!; [intros [v Hv]|..]; read_trace.
Qed.

(** *** Unknown channels *)

(** C7, amended: for a channel ID that is not in the channel map, [Receive]
    delivers no envelope, calls neither hook of the validator and returns;
    while the reactor is running it logs an error first. *)
Theorem Receive_unknown_channel s chID src msgBytes ready :
  Channels (self s) !! ChannelID_of_byte chID = None →
  let o := Receive chID src msgBytes ready s in
  (IsRunning (base (self s)) = true →
   error_logs (since s (final o)) = ["unexpected channel"])
  ∧ envelopes (since s (final o)) = []
  ∧ unmarshal_failures (since s (final o)) = []
  ∧ validations (since s (final o)) = []
  ∧ returns o = true.
Proof.
  intros Hch o. subst o.
  destruct (IsRunning (base (self s))) eqn:Hrun.
  - rewrite Receive_unknown by done. split_and!; read_trace.
  - rewrite Receive_stopped by done. split_and!; read_trace.
Qed.

(** *** Rejected messages *)

(** C8: for a configured channel ID and bytes that decode to a message the
    configured validator rejects, [Receive] delivers no envelope, does not
    call the decode-failure hook, and returns. *)
Theorem Receive_drops_rejected s chID src msgBytes ready c msg v err :
  Channels (self s) !! ChannelID_of_byte chID = Some c →
  decoded c msgBytes = (msg, None) →
  rs_MessageValidator (self s) = Some v →
  Validate v chID src msgBytes msg = Some err →
  let o := Receive chID src msgBytes ready s in
  envelopes (since s (final o)) = []
  ∧ unmarshal_failures (since s (final o)) = []
  ∧ returns o = true.
Proof.
  intros Hch Hdec Hval Hv o. subst o.
  destruct (IsRunning (base (self s))) eqn:Hrun.
  - rewrite (Receive_rejected _ _ _ _ _ c msg err)
      by (try done; unfold verdict; by rewrite Hval).
    split_and!; read_trace.
  - rewrite Receive_stopped by done. split_and!; read_trace.
Qed.

(** ** AddPeer and RemovePeer *)

Ltac run_peer_update :=
  unfold AddPeer, RemovePeer, Logger_Debug, select_send, emit,
    mbind, M_bind, mret, M_ret, get_self, panic in *.

Lemma AddPeer_open s peer ready peerID :
  PeerIDFromString (Peer_ID peer) = (peerID, None) →
  PeerUpdateCh (self s) ∉ closed s →
  AddPeer peer ready s
  = Done tt (add_events
      (update_events (PeerUpdateCh (self s))
         {| upd_PeerID := peerID; Status := PeerStatusUp |} ready) s).
Proof.
  intros Hid Hopen. run_peer_update. rewrite Hid. simpl.
  rewrite decide_False by done.
  destruct ready; simpl; by rewrite ?add_events_app.
Qed.

Lemma RemovePeer_open {R} s peer (reason : R) ready peerID :
  PeerIDFromString (Peer_ID peer) = (peerID, None) →
  PeerUpdateCh (self s) ∉ closed s →
  RemovePeer peer reason ready s
  = Done tt (add_events
      (update_events (PeerUpdateCh (self s))
         {| upd_PeerID := peerID; Status := PeerStatusDown |} ready) s).
Proof.
  intros Hid Hopen. run_peer_update. rewrite Hid. simpl.
  rewrite decide_False by done.
  destruct ready; simpl; by rewrite ?add_events_app.
Qed.

(** After [close(rs.PeerUpdateCh)] the select of [AddPeer] panics, whether
    or not a receiver is around. *)
Lemma AddPeer_closed s peer ready peerID :
  PeerIDFromString (Peer_ID peer) = (peerID, None) →
  PeerUpdateCh (self s) ∈ closed s →
  AddPeer peer ready s = Panic "send on closed channel" s.
Proof.
  intros Hid Hcl. run_peer_update. rewrite Hid. simpl.
  by rewrite decide_True by done.
Qed.

Lemma AddPeer_unparsable s peer ready peerID err :
  PeerIDFromString (Peer_ID peer) = (peerID, Some err) →
  AddPeer peer ready s = Panic err s.
Proof. intros Hid. run_peer_update. by rewrite Hid. Qed.

Lemma AddPeer_RemovePeer_open {R} s peer (reason : R) ready1 ready2 peerID :
  PeerIDFromString (Peer_ID peer) = (peerID, None) →
  PeerUpdateCh (self s) ∉ closed s →
  (AddPeer peer ready1 ;; RemovePeer peer reason ready2) s
  = Done tt (add_events
      (update_events (PeerUpdateCh (self s))
         {| upd_PeerID := peerID; Status := PeerStatusUp |} ready1
       ++ update_events (PeerUpdateCh (self s))
            {| upd_PeerID := peerID; Status := PeerStatusDown |} ready2) s).
Proof.
  intros Hid Hopen. unfold mbind at 1, M_bind at 1.
  rewrite (AddPeer_open _ _ _ peerID) by done.
  rewrite (RemovePeer_open _ _ _ _ peerID) by done.
  by rewrite add_events_app.
Qed.

(** C5, amended: as long as the peer-update channel has not been closed, for
    a peer whose string identity parses, [AddPeer] followed by [RemovePeer]
    delivers, with a receiver ready at both attempts, exactly two updates in
    order, Up then Down, with the same derived identity; an update for which
    no receiver is ready is dropped, and both calls return. *)
Theorem AddPeer_then_RemovePeer s peer (reason : string) ready1 ready2 peerID :
  PeerUpdateCh (self s) ∉ closed s →
  PeerIDFromString (Peer_ID peer) = (peerID, None) →
  let o := (AddPeer peer ready1 ;; RemovePeer peer reason ready2) s in
  returns o = true
  ∧ peer_updates (since s (final o))
    = (if ready1
       then [(PeerUpdateCh (self s),
              {| upd_PeerID := peerID; Status := PeerStatusUp |})]
       else [])
      ++ (if ready2
          then [(PeerUpdateCh (self s),
                 {| upd_PeerID := peerID; Status := PeerStatusDown |})]
          else []).
Proof.
  intros Hopen Hid o. subst o.
  rewrite (AddPeer_RemovePeer_open _ _ _ _ _ peerID) by done.
  split; [done|]. simpl. rewrite since_add_events.
  by destruct ready1, ready2.
Qed.

(** ** OnStop *)

Lemma OnStop_loop it s :
  range it (λ '(_, cs),
    err ← Channel_Close (cs_Channel cs);
    match err with
    | Some _ => Logger_Error "failed to close channel"
    | None => mret tt
    end) s
  = Done tt (add_events (OnStop_loop_events it) s).
Proof.
  revert s. induction it as [|[k c] it IH]; intros s; simpl.
  - by rewrite add_events_nil.
  - unfold mbind at 1, M_bind at 1.
    unfold Channel_Close, Logger_Error, emit, mbind at 1, M_bind at 1,
      mbind at 1, M_bind at 1, mret, M_ret.
    unfold close_events.
    destruct (Channel_Close_err (cs_Channel c)); simpl;
      rewrite IH, !add_events_app; done.
Qed.

Lemma OnStop_open s it :
  PeerUpdateCh (self s) ∉ closed s →
  OnStop it s
  = Done tt {| self := self s;
               closed := {[PeerUpdateCh (self s)]} ∪ closed s;
               trace := trace s ++ OnStop_loop_events it
                          ++ [EvClose (PeerUpdateCh (self s))] |}.
Proof.
  intros Hopen. unfold OnStop, mbind at 1, M_bind at 1. rewrite OnStop_loop.
  unfold mbind, M_bind, get_self, close. simpl.
  rewrite decide_False by done. by rewrite (assoc_L (++)).
Qed.

(** A second [close(rs.PeerUpdateCh)] panics, after the handles have been
    gone through again. *)
Lemma OnStop_closed s it :
  PeerUpdateCh (self s) ∈ closed s →
  OnStop it s
  = Panic "close of closed channel" (add_events (OnStop_loop_events it) s).
Proof.
  intros Hcl. unfold OnStop, mbind at 1, M_bind at 1. rewrite OnStop_loop.
  unfold mbind, M_bind, get_self, close. simpl.
  by rewrite decide_True by done.
Qed.

Lemma handle_closes_loop it :
  handle_closes (OnStop_loop_events it) = (cs_Channel ∘ snd) <$> it.
Proof.
  induction it as [|[k c] it IH]; [done|].
  unfold OnStop_loop_events, handle_closes in *. simpl.
  rewrite omap_app, IH. unfold close_events.
  by destruct (Channel_Close_err (cs_Channel c)).
Qed.

Lemma chan_closes_loop it : chan_closes (OnStop_loop_events it) = [].
Proof.
  induction it as [|[k c] it IH]; [done|].
  unfold OnStop_loop_events, chan_closes in *. simpl.
  rewrite omap_app, IH. unfold close_events.
  by destruct (Channel_Close_err (cs_Channel c)).
Qed.

Lemma error_logs_loop it :
  error_logs (OnStop_loop_events it)
  = omap (λ kc, (λ _, "failed to close channel")
                  <$> Channel_Close_err (cs_Channel kc.2)) it.
Proof.
  induction it as [|[k c] it IH]; [done|].
  unfold OnStop_loop_events, error_logs in *. simpl.
  rewrite omap_app, IH. unfold close_events.
  by destruct (Channel_Close_err (cs_Channel c)).
Qed.

(** C6, amended: called while the peer-update channel has not been closed,
    [OnStop] calls [Close] on the handle of every [ChannelShim], once each;
    logs an error for each close that fails and goes on with the remaining
    channels; closes the peer-update channel exactly once, as its last
    step, after every handle; and runs to completion. *)
Theorem OnStop_closes_all s it :
  map_range (Channels (self s)) it →
  PeerUpdateCh (self s) ∉ closed s →
  let o := OnStop it s in
  returns o = true
  ∧ (∀ k c, Channels (self s) !! k = Some c →
            cs_Channel c ∈ handle_closes (since s (final o)))
  ∧ handle_closes (since s (final o)) = (cs_Channel ∘ snd) <$> it
  ∧ error_logs (since s (final o))
    = omap (λ kc, (λ _, "failed to close channel")
                    <$> Channel_Close_err (cs_Channel kc.2)) it
  ∧ chan_closes (since s (final o)) = [PeerUpdateCh (self s)]
  ∧ (∃ t, since s (final o) = t ++ [EvClose (PeerUpdateCh (self s))]
          ∧ handle_closes t = (cs_Channel ∘ snd) <$> it)
  ∧ PeerUpdateCh (self s) ∈ closed (final o).
Proof.
  intros Hit Hopen o. subst o. rewrite OnStop_open by done. simpl.
  assert (since s
            {| self := self s;
               closed := {[PeerUpdateCh (self s)]} ∪ closed s;
               trace := trace s ++ OnStop_loop_events it
                          ++ [EvClose (PeerUpdateCh (self s))] |}
          = OnStop_loop_events it ++ [EvClose (PeerUpdateCh (self s))]) as ->.
  { unfold since. simpl. by rewrite drop_app_length. }
  assert (Hh : handle_closes
                 (OnStop_loop_events it ++ [EvClose (PeerUpdateCh (self s))])
               = (cs_Channel ∘ snd) <$> it).
  { unfold handle_closes. rewrite omap_app. simpl.
    rewrite (right_id_L [] (++)). apply handle_closes_loop. }
  split_and!.
  - done.
  - intros k c Hkc. rewrite Hh.
    apply (list_elem_of_fmap_2 (cs_Channel ∘ snd) it (k, c)).
    rewrite Hit. by apply elem_of_map_to_list.
  - done.
  - unfold error_logs. rewrite omap_app. simpl.
    rewrite (right_id_L [] (++)). apply error_logs_loop.
  - pose proof (chan_closes_loop it) as Hc. unfold chan_closes in *.
    rewrite omap_app. simpl. by rewrite Hc.
  - eexists. split; [done|]. apply handle_closes_loop.
  - apply elem_of_union_l. by apply elem_of_singleton.
Qed.

(** ** The outbound proxy task *)

Ltac run_proxy :=
  unfold proxyEnvelope, Send, emit, mbind, M_bind, mret, M_ret, get_self,
    panic in *.

Lemma proxyEnvelope_no_peer s chID e :
  Switch_peers (base (self s)) !! PeerID_String (To e) = None →
  proxyEnvelope chID e s
  = Panic ("failed to proxy envelope; failed to find peer ("
             +:+ PeerID_String (To e) +:+ ")") s.
Proof. intros Hp. run_proxy. by rewrite Hp. Qed.

Lemma proxyEnvelope_encode_error s chID e p bz err :
  Switch_peers (base (self s)) !! PeerID_String (To e) = Some p →
  proto_Marshal (Message e) = (bz, Some err) →
  proxyEnvelope chID e s
  = Panic ("failed to proxy envelope; failed to encode message: " +:+ err) s.
Proof. intros Hp Hm. run_proxy. by rewrite Hp, Hm. Qed.

Lemma proxyEnvelope_sent s chID e p bz :
  Switch_peers (base (self s)) !! PeerID_String (To e) = Some p →
  proto_Marshal (Message e) = (bz, None) →
  proxyEnvelope chID e s = Done tt (add_events [EvSend p chID bz] s).
Proof. intros Hp Hm. run_proxy. by rewrite Hp, Hm. Qed.

(** [proxyPeerEnvelopes] starts one task for each entry of the map, on the
    legacy ID of the entry's descriptor and on its outbound endpoint. *)
Lemma proxyPeerEnvelopes_spec it s :
  proxyPeerEnvelopes it s
  = Done tt (add_events
      ((λ kc, EvGo (ID (Descriptor kc.2)) (OutCh kc.2)) <$> it) s).
Proof.
  unfold proxyPeerEnvelopes. revert s.
  induction it as [|[k c] it IH]; intros s; simpl.
  - by rewrite add_events_nil.
  - unfold mbind, M_bind, emit. rewrite IH. by rewrite add_events_app.
Qed.

(** A task whose envelopes all resolve and encode sends each of them, in
    the order received, and ends when its channel is closed. *)
Lemma proxyTask_sends s chID es (ps : list (Peer * list byte)) :
  Forall2 (λ e pb,
    Switch_peers (base (self s)) !! PeerID_String (To e) = Some pb.1
    ∧ proto_Marshal (Message e) = (pb.2, None)) es ps →
  proxyTask chID es s
  = Done tt (add_events ((λ pb, EvSend pb.1 chID pb.2) <$> ps) s).
Proof.
  unfold proxyTask. intros Hall.
  cut (∀ s', self s' = self s →
         range es (proxyEnvelope chID) s'
         = Done tt (add_events ((λ pb, EvSend pb.1 chID pb.2) <$> ps) s'));
    [by auto|].
  induction Hall as [|e [p bz] es ps [Hp Hm] _ IH]; intros s' Hs'; simpl in *.
  - by rewrite add_events_nil.
  - unfold mbind, M_bind.
    rewrite (proxyEnvelope_sent _ _ _ p bz) by (by rewrite ?Hs').
    by rewrite IH, add_events_app.
Qed.

(** ** The channel map *)

Lemma NewShim_dom name ds v :
  dom (Channels (self (NewShim name ds v)))
  = list_to_set (C := gset ChannelID) (cID_of <$> ds).
Proof.
  rewrite NewShim_Channels, dom_list_to_map_L, fmap_reverse, built_fst.
  apply set_eq. intros k.
  by rewrite !elem_of_list_to_set, elem_of_reverse.
Qed.

Lemma reaches_Channels s0 s :
  reaches s0 s → Channels (self s) = Channels (self s0).
Proof.
  induction 1 as [|s c _ IH _|s br _ IH]; [done|..].
  - destruct (framed_call c s) as (-> & _). done.
  - done.
Qed.

(** C9: [NewShim] puts an entry into the channel map for the ID of every
    descriptor, and for no other ID; after that no call of [Receive],
    [AddPeer], [RemovePeer], [OnStart], [OnStop] or [GetChannels], no round
    of a proxy task and no move of the framework changes the map: every
    channel ID maps to the same [ChannelShim] as after construction. *)
Theorem Channels_never_change name ds v s :
  reaches (NewShim name ds v) s →
  dom (Channels (self (NewShim name ds v)))
  = list_to_set (C := gset ChannelID) (cID_of <$> ds)
  ∧ Channels (self s) = Channels (self (NewShim name ds v))
  ∧ (∀ k, Channels (self s) !! k = Channels (self (NewShim name ds v)) !! k)
  ∧ (∀ cs, Channels (self (final (calls cs s)))
           = Channels (self (NewShim name ds v))).
Proof.
  intros Hr. pose proof (reaches_Channels _ _ Hr) as Hs.
  split_and!.
  - apply NewShim_dom.
  - done.
  - intros k. by rewrite Hs.
  - intros cs. rewrite <-Hs. unfold calls.
    by destruct (framed_range cs call framed_call s) as (-> & _).
Qed.

(** ** GetChannels on a constructed shim *)

Lemma NewShim_range_distinct name ds v it :
  NoDup (ID ∘ cds_Descriptor <$> ds) →
  map_range (Channels (self (NewShim name ds v))) it →
  it ≡ₚ built ds 0.
Proof.
  intros Hnd Hit. rewrite Hit, NewShim_Channels.
  rewrite map_to_list_to_map; [apply reverse_Permutation|].
  rewrite fmap_reverse, built_fst, reverse_Permutation.
  assert (cID_of <$> ds = ChannelID_of_byte <$> (ID ∘ cds_Descriptor <$> ds))
    as -> by (by rewrite <-list_fmap_compose).
  by apply (NoDup_fmap_2 _).
Qed.

(** C4, amended: for descriptors with pairwise distinct channel IDs, the
    descriptors that [GetChannels] returns on the constructed shim are, as
    a set, the configured ones, whatever the order of the map. *)
Theorem GetChannels_returns_configured name ds v it :
  NoDup (ID ∘ cds_Descriptor <$> ds) →
  let s := NewShim name ds v in
  map_range (Channels (self s)) it →
  ∃ out, GetChannels it s = Done out s
         ∧ same_set out (Some <$> (cds_Descriptor <$> ds)).
Proof.
  intros Hnd s Hit. subst s. eexists. split; [by apply GetChannels_spec|].
  pose proof (NewShim_range_distinct _ _ _ _ Hnd Hit) as Hp.
  intros x. rewrite Hp, <-(built_descriptors ds 0).
  by rewrite <-(list_fmap_compose (Descriptor ∘ snd) Some).
Qed.

(** ** Descriptors that share a channel ID *)

Lemma NewShim_lookup_last name ds1 cds ds2 v :
  cID_of cds ∉ cID_of <$> ds2 →
  Channels (self (NewShim name (ds1 ++ cds :: ds2) v)) !! cID_of cds
  = Some (shim_at (3 * length ds1) cds).
Proof.
  intros Hlast. rewrite NewShim_Channels, built_app. simpl.
  rewrite reverse_app, reverse_cons, <-(assoc_L (++)), list_to_map_app.
  rewrite lookup_union_r.
  - simpl. rewrite lookup_insert_eq. by rewrite Nat.add_0_r.
  - apply not_elem_of_list_to_map_1.
    by rewrite fmap_reverse, built_fst, elem_of_reverse.
Qed.

(** C10: when two or more descriptors of the list share a channel ID, the
    constructed map keeps one [ChannelShim] for each distinct ID, the one
    built from the last descriptor with that ID; so the slice that
    [GetChannels] returns has as many entries as there are distinct IDs,
    fewer than there are descriptors. *)
Theorem NewShim_keeps_last_per_ID name ds v it :
  let s := NewShim name ds v in
  map_range (Channels (self s)) it →
  (∀ ds1 cds ds2,
     ds = ds1 ++ cds :: ds2 →
     cID_of cds ∉ cID_of <$> ds2 →
     Channels (self s) !! cID_of cds = Some (shim_at (3 * length ds1) cds))
  ∧ (∀ k, k ∉ cID_of <$> ds → Channels (self s) !! k = None)
  ∧ ∃ out, GetChannels it s = Done out s
           ∧ length out = length (remove_dups (cID_of <$> ds))
           ∧ (¬ NoDup (cID_of <$> ds) → length out < length ds).
Proof.
  intros s Hit. subst s. split_and!.
  - intros ds1 cds ds2 -> Hlast. by apply NewShim_lookup_last.
  - intros k Hk. apply not_elem_of_dom. rewrite NewShim_dom.
    by rewrite elem_of_list_to_set.
  - eexists. split; [by apply GetChannels_spec|].
    assert (length ((Some ∘ Descriptor ∘ snd) <$> it)
            = length (remove_dups (cID_of <$> ds))) as Hlen.
    { rewrite length_fmap, Hit, length_map_to_list, NewShim_Channels.
      by rewrite size_list_to_map_reverse, built_fst. }
    split; [done|]. intros Hdup. rewrite Hlen.
    apply remove_dups_length_lt in Hdup. by rewrite length_fmap in Hdup.
Qed.

(** * Further properties *)

(** ** Receive, all branches *)

Lemma Receive_closed s chID src msgBytes ready c msg peerID :
  IsRunning (base (self s)) = true →
  acceptable s chID src msgBytes c msg peerID →
  InCh c ∈ closed s →
  Receive chID src msgBytes ready s
  = Panic "send on closed channel"
      (add_events (validation_events (self s) chID src msgBytes msg) s).
Proof.
  intros Hrun (Hch & Hdec & Hv & Hid) Hcl. run_Receive.
  rewrite Hrun, Hch. simpl. rewrite Hdec.
  destruct (rs_MessageValidator (self s)); simpl.
  - rewrite Hv, Hid. simpl. by rewrite decide_True by done.
  - rewrite Hid. simpl. rewrite decide_True by done.
    by rewrite add_events_nil.
Qed.

(** The branches of [Receive], with what each leaves behind. *)
Lemma Receive_cases s chID src msgBytes ready :
  let o := Receive chID src msgBytes ready s in
  (IsRunning (base (self s)) = false ∧ o = Done tt s)
  ∨ (IsRunning (base (self s)) = true
     ∧ Channels (self s) !! ChannelID_of_byte chID = None
     ∧ o = Done tt (add_events [EvLog LvlError "unexpected channel"] s))
  ∨ (∃ c msg err,
       IsRunning (base (self s)) = true
       ∧ Channels (self s) !! ChannelID_of_byte chID = Some c
       ∧ decoded c msgBytes = (msg, Some err)
       ∧ o = Done tt (add_events
               (EvLog LvlError "error decoding message"
                  :: match rs_MessageValidator (self s) with
                     | Some _ => [EvOnUnmarshalFailure chID src msgBytes err]
                     | None => []
                     end) s))
  ∨ (∃ c msg err,
       IsRunning (base (self s)) = true
       ∧ Channels (self s) !! ChannelID_of_byte chID = Some c
       ∧ decoded c msgBytes = (msg, None)
       ∧ verdict (self s) chID src msgBytes msg = Some err
       ∧ o = Done tt (add_events
               (validation_events (self s) chID src msgBytes msg
                  ++ [EvLog LvlError "invalid message"]) s))
  ∨ (∃ c msg peerID err,
       IsRunning (base (self s)) = true
       ∧ Channels (self s) !! ChannelID_of_byte chID = Some c
       ∧ decoded c msgBytes = (msg, None)
       ∧ verdict (self s) chID src msgBytes msg = None
       ∧ PeerIDFromString (Peer_ID src) = (peerID, Some err)
       ∧ o = Panic err
               (add_events (validation_events (self s) chID src msgBytes msg) s))
  ∨ (∃ c msg peerID,
       IsRunning (base (self s)) = true
       ∧ acceptable s chID src msgBytes c msg peerID
       ∧ InCh c ∈ closed s
       ∧ o = Panic "send on closed channel"
               (add_events (validation_events (self s) chID src msgBytes msg) s))
  ∨ (∃ c msg peerID,
       IsRunning (base (self s)) = true
       ∧ acceptable s chID src msgBytes c msg peerID
       ∧ (InCh c ∉ closed s)
       ∧ o = Done tt (add_events
               (validation_events (self s) chID src msgBytes msg
                  ++ if ready
                     then [EvEnvelope (InCh c) (envelope_from peerID msg);
                           EvLog LvlDebug "proxied envelope"]
                     else [EvLog LvlDebug "dropped envelope"]) s)).
Proof.
  intros o. subst o.
  destruct (IsRunning (base (self s))) eqn:Hrun;
    [|left; eauto using Receive_stopped].
  right.
  destruct (Channels (self s) !! ChannelID_of_byte chID) as [c|] eqn:Hch;
    [|left; eauto using Receive_unknown].
  right.
  destruct (decoded c msgBytes) as [msg [err|]] eqn:Hdec;
    [left; exists c, msg, err; eauto using Receive_undecodable|].
  right.
  destruct (verdict (self s) chID src msgBytes msg) as [err|] eqn:Hv;
    [left; exists c, msg, err; eauto 6 using Receive_rejected|].
  right.
  destruct (PeerIDFromString (Peer_ID src)) as [peerID [err|]] eqn:Hid;
    [left; exists c, msg, peerID, err; eauto 7 using Receive_unparsable|].
  right.
  assert (acceptable s chID src msgBytes c msg peerID) as Hacc by done.
  destruct (decide (InCh c ∈ closed s)) as [Hcl|Hopen].
  - left. exists c, msg, peerID. eauto using Receive_closed.
  - right. exists c, msg, peerID. split_and!; try done.
    by apply Receive_accepted.
Qed.

(** Reads the events off an outcome given by [Receive_cases]. *)
Ltac read_case H :=
  rewrite H; simpl; rewrite ?since_add_events, ?since_refl;
  unfold validation_events, envelopes, unmarshal_failures, validations,
    error_logs in *;
  rewrite ?omap_app; simpl.

(** X1. [Receive] delivers at most one envelope, and delivers one only when
    the reactor is running, the channel is configured, the bytes decode,
    the validator (if any) accepts, the peer's identity parses and a
    receiver is ready; the envelope then is on the inbound endpoint of that
    channel, from that identity, with that message. *)
Theorem Receive_delivers_only_accepted s chID src msgBytes ready :
  let o := Receive chID src msgBytes ready s in
  envelopes (since s (final o)) = []
  ∨ ∃ c msg peerID,
      IsRunning (base (self s)) = true
      ∧ acceptable s chID src msgBytes c msg peerID
      ∧ ready = true
      ∧ envelopes (since s (final o)) = [(InCh c, envelope_from peerID msg)].
Proof.
  intros o. subst o.
  destruct (Receive_cases s chID src msgBytes ready)
    as [[_ H]|[(_ & _ & H)|[(c & msg & err & _ & _ & _ & H)
       |[(c & msg & err & _ & _ & _ & _ & H)
       |[(c & msg & peerID & err & _ & _ & _ & _ & _ & H)
       |[(c & msg & peerID & _ & _ & _ & H)
       |(c & msg & peerID & Hrun & Hacc & _ & H)]]]]]].
  1-6: left; read_case H;
    repeat match goal with
           | |- context [match ?x with _ => _ end] => destruct x
           end; done.
  destruct ready.
  - right. exists c, msg, peerID. split_and!; try done.
    read_case H. by destruct (rs_MessageValidator (self s)).
  - left. read_case H. by destruct (rs_MessageValidator (self s)).
Qed.

(** X2. The string ID of the source peer is parsed last, after decoding
    and validation. A peer whose ID does not parse is handled as any other
    as long as its message is not accepted: [Receive] returns when the
    reactor is not running, on an unknown channel, on bytes that do not
    decode and on a message the validator rejects. On a message that is
    accepted [Receive] panics with the parse error: the validator, if any,
    has been asked once, and no envelope is delivered, whether or not a
    receiver is ready and whatever the state of the inbound endpoint. *)
Theorem Receive_panics_on_bad_identity s chID src msgBytes ready peerID err :
  PeerIDFromString (Peer_ID src) = (peerID, Some err) →
  let o := Receive chID src msgBytes ready s in
  (IsRunning (base (self s)) = false → o = Done tt s)
  ∧ (Channels (self s) !! ChannelID_of_byte chID = None → returns o = true)
  ∧ (∀ c msg err',
       Channels (self s) !! ChannelID_of_byte chID = Some c →
       decoded c msgBytes = (msg, Some err') →
       returns o = true)
  ∧ (∀ c msg err',
       Channels (self s) !! ChannelID_of_byte chID = Some c →
       decoded c msgBytes = (msg, None) →
       verdict (self s) chID src msgBytes msg = Some err' →
       returns o = true)
  ∧ (∀ c msg,
       IsRunning (base (self s)) = true →
       Channels (self s) !! ChannelID_of_byte chID = Some c →
       decoded c msgBytes = (msg, None) →
       verdict (self s) chID src msgBytes msg = None →
       o = Panic err
             (add_events (validation_events (self s) chID src msgBytes msg) s)
       ∧ envelopes (since s (final o)) = []
       ∧ validations (since s (final o))
         = match rs_MessageValidator (self s) with
           | Some _ => [(chID, src, msgBytes, msg)]
           | None => []
           end).
Proof.
  intros Hid o. subst o.
  destruct (IsRunning (base (self s))) eqn:Hrun.
  - split_and!.
    + done.
    + intros Hch. by rewrite Receive_unknown.
    + intros c msg err' Hch Hdec.
      by rewrite (Receive_undecodable _ _ _ _ _ c msg err').
    + intros c msg err' Hch Hdec Hv.
      by rewrite (Receive_rejected _ _ _ _ _ c msg err').
    + intros c msg _ Hch Hdec Hv.
      rewrite (Receive_unparsable _ _ _ _ _ c msg peerID err) by done.
      split_and!; [done|..]; simpl; rewrite since_add_events;
        unfold validation_events; by destruct (rs_MessageValidator (self s)).
  - rewrite Receive_stopped by done. split_and!; done.
Qed.

(** X3. One call of [Receive] calls at most one method of the validator, at
    most once: [OnUnmarshalFailure] only for bytes that failed to decode,
    with those bytes and that error, [Validate] only for bytes that
    decoded, with the decoded message; without a validator, neither. *)
Theorem Receive_calls_at_most_one_hook s chID src msgBytes ready :
  let t := since s (final (Receive chID src msgBytes ready s)) in
  ((unmarshal_failures t = [] ∧ validations t = [])
   ∨ (∃ c msg err,
        Channels (self s) !! ChannelID_of_byte chID = Some c
        ∧ decoded c msgBytes = (msg, Some err)
        ∧ unmarshal_failures t = [(chID, src, msgBytes, err)]
        ∧ validations t = [])
   ∨ (∃ c msg,
        Channels (self s) !! ChannelID_of_byte chID = Some c
        ∧ decoded c msgBytes = (msg, None)
        ∧ unmarshal_failures t = []
        ∧ validations t = [(chID, src, msgBytes, msg)]))
  ∧ (rs_MessageValidator (self s) = None →
     unmarshal_failures t = [] ∧ validations t = []).
Proof.
  intros t. subst t.
  destruct (Receive_cases s chID src msgBytes ready)
    as [[_ H]|[(_ & _ & H)|[(c & msg & err & _ & Hch & Hdec & H)
       |[(c & msg & err & _ & Hch & Hdec & _ & H)
       |[(c & msg & peerID & err & _ & Hch & Hdec & _ & _ & H)
       |[(c & msg & peerID & _ & (Hch & Hdec & _) & _ & H)
       |(c & msg & peerID & _ & (Hch & Hdec & _) & _ & H)]]]]]];
    read_case H.
  1-2: split; [by left|done].
  all: destruct (rs_MessageValidator (self s)) as [v|]; simpl.
  all: try destruct ready; simpl.
  all: split; [|done].
  all: first [ by left
             | right; left; exists c, msg, err; done
             | right; right; exists c, msg; done ].
Qed.

(** ** AddPeer and RemovePeer, all branches *)

Lemma RemovePeer_closed {R} s peer (reason : R) ready peerID :
  PeerIDFromString (Peer_ID peer) = (peerID, None) →
  PeerUpdateCh (self s) ∈ closed s →
  RemovePeer peer reason ready s = Panic "send on closed channel" s.
Proof.
  intros Hid Hcl. run_peer_update. rewrite Hid. simpl.
  by rewrite decide_True by done.
Qed.

Lemma RemovePeer_unparsable {R} s peer (reason : R) ready peerID err :
  PeerIDFromString (Peer_ID peer) = (peerID, Some err) →
  RemovePeer peer reason ready s = Panic err s.
Proof. intros Hid. run_peer_update. by rewrite Hid. Qed.

(** X4. [AddPeer] and [RemovePeer] return exactly when the string ID of the
    peer parses and the peer-update channel has not been closed; a call
    that panics has changed nothing, and panics with the parse error if
    there is one, else with Go's "send on closed channel". *)
Theorem peer_update_returns_iff s peer (reason : string) ready :
  let parsed := PeerIDFromString (Peer_ID peer) in
  let a := AddPeer peer ready s in
  let r := RemovePeer peer reason ready s in
  (returns a = true ↔ parsed.2 = None ∧ PeerUpdateCh (self s) ∉ closed s)
  ∧ (returns r = true ↔ parsed.2 = None ∧ PeerUpdateCh (self s) ∉ closed s)
  ∧ (∀ err, parsed.2 = Some err → a = Panic err s ∧ r = Panic err s)
  ∧ (parsed.2 = None → PeerUpdateCh (self s) ∈ closed s →
     a = Panic "send on closed channel" s
     ∧ r = Panic "send on closed channel" s).
Proof.
  intros parsed a r. subst parsed a r.
  destruct (PeerIDFromString (Peer_ID peer)) as [peerID [err|]] eqn:Hid; simpl.
  - rewrite (AddPeer_unparsable _ _ _ peerID err) by done.
    rewrite (RemovePeer_unparsable _ _ _ _ peerID err) by done. simpl.
    split_and!; try done.
    + split; [done|]. by intros [[=] _].
    + split; [done|]. by intros [[=] _].
    + by intros ? [= ->].
  - destruct (decide (PeerUpdateCh (self s) ∈ closed s)) as [Hcl|Hopen].
    + rewrite (AddPeer_closed _ _ _ peerID) by done.
      rewrite (RemovePeer_closed _ _ _ _ peerID) by done. simpl.
      split_and!; try done.
      * split; [done|]. by intros [_ ?].
      * split; [done|]. by intros [_ ?].
    + rewrite (AddPeer_open _ _ _ peerID) by done.
      rewrite (RemovePeer_open _ _ _ _ peerID) by done. simpl.
      split_and!; done.
Qed.

(** X5. [RemovePeer] does what [AddPeer] does, with the status Down in
    place of Up in the update it delivers: it returns in the same cases,
    leaves the same events but for that status, whatever the reason it is
    given, and closes nothing. *)
Theorem RemovePeer_mirrors_AddPeer {R} s peer (reason : R) ready :
  let a := AddPeer peer ready s in
  let r := RemovePeer peer reason ready s in
  returns r = returns a
  ∧ since s (final r) = as_down <$> since s (final a)
  ∧ closed (final r) = closed s
  ∧ closed (final a) = closed s.
Proof.
  intros a r. subst a r.
  destruct (PeerIDFromString (Peer_ID peer)) as [peerID [err|]] eqn:Hid.
  - rewrite (AddPeer_unparsable _ _ _ peerID err) by done.
    rewrite (RemovePeer_unparsable _ _ _ _ peerID err) by done. simpl.
    by rewrite since_refl.
  - destruct (decide (PeerUpdateCh (self s) ∈ closed s)) as [Hcl|Hopen].
    + rewrite (AddPeer_closed _ _ _ peerID) by done.
      rewrite (RemovePeer_closed _ _ _ _ peerID) by done. simpl.
      by rewrite since_refl.
    + rewrite (AddPeer_open _ _ _ peerID) by done.
      rewrite (RemovePeer_open _ _ _ _ peerID) by done. simpl.
      rewrite !since_add_events. by destruct ready.
Qed.

(** ** OnStart *)

Lemma tasks_fmap_EvGo it :
  tasks ((λ kc, EvGo (proto_Message := proto_Message) (PeerID := PeerID)
                  (ID (Descriptor kc.2)) (OutCh kc.2)) <$> it)
  = task_of <$> it.
Proof.
  induction it as [|kc it IH]; [done|].
  unfold tasks in *. simpl. f_equal. exact IH.
Qed.

(** X7. [OnStart] never fails and never panics. While the reactor is
    running it starts one proxy task for each channel of the map, on the
    legacy ID of the channel's descriptor and on its outbound endpoint, and
    does nothing else; while the reactor is not running it does nothing. *)
Theorem OnStart_starts_one_task_per_channel s it :
  map_range (Channels (self s)) it →
  ∃ s', OnStart it s = Done None s'
        ∧ tasks (since s s')
          = (if IsRunning (base (self s)) then task_of <$> it else [])
        ∧ length (since s s') = length (tasks (since s s'))
        ∧ (IsRunning (base (self s)) = true →
           length (tasks (since s s')) = size (Channels (self s))
           ∧ ∀ k c, Channels (self s) !! k = Some c →
                    (ID (Descriptor c), OutCh c) ∈ tasks (since s s')).
Proof.
  intros Hit. unfold OnStart, mbind, M_bind, get_self. simpl.
  destruct (IsRunning (base (self s))) eqn:Hrun.
  - rewrite proxyPeerEnvelopes_spec. simpl. eexists. split; [done|].
    rewrite since_add_events, tasks_fmap_EvGo, !length_fmap.
    split_and!; [done..|]. intros _. split.
    + rewrite Hit. apply length_map_to_list.
    + intros k c Hkc.
      apply (list_elem_of_fmap_2 task_of it (k, c)).
      rewrite Hit. by apply elem_of_map_to_list.
  - simpl. eexists. split; [done|]. rewrite since_refl. done.
Qed.

(** ** The channels of a constructed shim *)

Lemma elem_of_built ds next k c :
  (k, c) ∈ built ds next →
  ∃ i cds, ds !! i = Some cds ∧ k = cID_of cds ∧ c = shim_at (3 * i + next) cds.
Proof.
  revert next. induction ds as [|d ds IH]; intros next; simpl.
  - by intros ?%elem_of_nil.
  - intros [[= -> ->]|Hin]%elem_of_cons.
    + by exists 0, d.
    + destruct (IH _ Hin) as (i & cds & Hi & -> & ->).
      exists (S i), cds. split_and!; [done..|]. f_equal. lia.
Qed.

Lemma reaches_PeerUpdateCh s0 s :
  reaches s0 s → PeerUpdateCh (self s) = PeerUpdateCh (self s0).
Proof.
  induction 1 as [|s c _ IH _|s br _ IH]; [done|..].
  - destruct (framed_call c s) as (-> & _). done.
  - done.
Qed.

(** Every entry of the map of a shim comes from a round of [NewShim]'s
    loop. *)
Lemma reaches_entry name ds v s k c :
  reaches (NewShim name ds v) s →
  Channels (self s) !! k = Some c →
  ∃ i cds, ds !! i = Some cds ∧ k = cID_of cds ∧ c = shim_at (3 * i) cds.
Proof.
  intros Hr Hkc. rewrite (reaches_Channels _ _ Hr) in Hkc.
  apply NewShim_lookup_built, elem_of_built in Hkc
    as (i & cds & Hi & -> & ->).
  exists i, cds. by rewrite Nat.add_0_r.
Qed.

Lemma reachable_key s k c :
  reachable s →
  Channels (self s) !! k = Some c →
  k = ChannelID_of_byte (ID (Descriptor c)).
Proof.
  intros (name & ds & v & Hr) Hkc.
  by destruct (reaches_entry _ _ _ _ _ _ Hr Hkc) as (i & cds & _ & -> & ->).
Qed.

Lemma reachable_shared_endpoint s k1 c1 k2 c2 ch :
  reachable s →
  Channels (self s) !! k1 = Some c1 →
  Channels (self s) !! k2 = Some c2 →
  ch ∈ endpoints c1 → ch ∈ endpoints c2 → k1 = k2.
Proof.
  intros (name & ds & v & Hr) Hc1 Hc2 Hin1 Hin2.
  destruct (reaches_entry _ _ _ _ _ _ Hr Hc1) as (i1 & cds1 & Hi1 & -> & ->).
  destruct (reaches_entry _ _ _ _ _ _ Hr Hc2) as (i2 & cds2 & Hi2 & -> & ->).
  unfold endpoints in Hin1, Hin2. simpl in *.
  assert (i1 = i2) as ->.
  { rewrite !elem_of_cons, elem_of_nil in Hin1, Hin2. lia. }
  rewrite Hi1 in Hi2. by injection Hi2 as <-.
Qed.

(** X8. The Go channels that [NewShim] makes are all different: in every
    state of a shim's life, the three endpoints of a channel of the map and
    the peer-update channel are four different channels, and two channels
    of the map share no endpoint. *)
Theorem NewShim_channels_are_fresh s k1 c1 k2 c2 :
  reachable s →
  Channels (self s) !! k1 = Some c1 →
  Channels (self s) !! k2 = Some c2 →
  NoDup (endpoints c1 ++ [PeerUpdateCh (self s)])
  ∧ (k1 ≠ k2 → ∀ ch, ch ∈ endpoints c1 → ch ∉ endpoints c2).
Proof.
  intros Hreach Hc1 Hc2. split.
  - destruct Hreach as (name & ds & v & Hr).
    destruct (reaches_entry _ _ _ _ _ _ Hr Hc1) as (i & cds & Hi & -> & ->).
    pose proof (lookup_lt_Some _ _ _ Hi) as Hlt.
    rewrite (reaches_PeerUpdateCh _ _ Hr), NewShim_PeerUpdateCh.
    unfold endpoints. simpl.
    repeat (apply NoDup_cons; split;
            [rewrite ?elem_of_cons, elem_of_nil; lia|]).
    apply NoDup_nil_2.
  - intros Hne ch Hin1 Hin2.
    by destruct Hne; eapply reachable_shared_endpoint.
Qed.

(** X9. In every state of a shim's life, an entry of the channel map is
    wired as [NewShim] wrote it: its key is the ID of its descriptor, its
    handle is bound to that ID and to the entry's own three endpoints. So
    the legacy ID that the proxy task of a channel sends on is the ID under
    which [Receive] finds that same channel. *)
Theorem Channels_stay_wired s k c :
  reachable s →
  Channels (self s) !! k = Some c →
  wired k c
  ∧ Channels (self s) !! ChannelID_of_byte (ID (Descriptor c)) = Some c.
Proof.
  intros (name & ds & v & Hr) Hkc.
  destruct (reaches_entry _ _ _ _ _ _ Hr Hkc) as (i & cds & _ & Hk & Hc).
  split; [by subst; repeat split|].
  rewrite <-Hkc. f_equal. by subst.
Qed.

(** X10. The tasks that [OnStart] starts on a running shim are on pairwise
    different legacy IDs and drain pairwise different outbound endpoints. *)
Theorem OnStart_tasks_are_distinct s it :
  reachable s →
  map_range (Channels (self s)) it →
  IsRunning (base (self s)) = true →
  let started := tasks (since s (final (OnStart it s))) in
  started = task_of <$> it ∧ NoDup started.*1 ∧ NoDup started.*2.
Proof.
  intros Hreach Hit Hrun started. subst started.
  unfold OnStart, mbind, M_bind, get_self. simpl. rewrite Hrun.
  rewrite proxyPeerEnvelopes_spec. simpl.
  rewrite since_add_events, tasks_fmap_EvGo.
  assert (Hnd : NoDup it).
  { rewrite Hit. apply NoDup_map_to_list. }
  assert (Hin : ∀ kc, kc ∈ it → Channels (self s) !! kc.1 = Some kc.2).
  { intros [k c]. rewrite Hit. apply elem_of_map_to_list. }
  split; [done|].
  rewrite <-!list_fmap_compose. split.
  - apply NoDup_fmap_2_strong; [|done].
    intros [k1 c1] [k2 c2] H1%Hin H2%Hin Heq. simpl in *.
    pose proof (reachable_key _ _ _ Hreach H1) as ->.
    pose proof (reachable_key _ _ _ Hreach H2) as ->.
    rewrite Heq in H1. assert (c1 = c2) as -> by congruence. done.
  - apply NoDup_fmap_2_strong; [|done].
    intros [k1 c1] [k2 c2] H1%Hin H2%Hin Heq. simpl in *.
    assert (k1 = k2) as ->.
    { apply (reachable_shared_endpoint s k1 c1 k2 c2 (OutCh c1));
        [done..| |].
      - unfold endpoints. rewrite !elem_of_cons. auto.
      - rewrite Heq. unfold endpoints. rewrite !elem_of_cons. auto. }
    rewrite H1 in H2. by injection H2 as ->.
Qed.

(** ** What a shim does in its lifetime *)

Lemma proxyEnvelope_cases s chID e :
  (∃ v, proxyEnvelope chID e s = Panic v s)
  ∨ (∃ p bz, proxyEnvelope chID e s = Done tt (add_events [EvSend p chID bz] s)).
Proof.
  destruct (Switch_peers (base (self s)) !! PeerID_String (To e)) as [p|] eqn:Hp;
    [|left; eauto using proxyEnvelope_no_peer].
  destruct (proto_Marshal (Message e)) as [bz [err|]] eqn:Hm.
  - left. eauto using proxyEnvelope_encode_error.
  - right. eauto using proxyEnvelope_sent.
Qed.

Lemma in_range_lookup it (kc : ChannelID * ChannelShim) s :
  map_range (Channels (self s)) it → kc ∈ it →
  Channels (self s) !! kc.1 = Some kc.2.
Proof. intros Hit. destruct kc. rewrite Hit. apply elem_of_map_to_list. Qed.

Lemma shim_event_loop s it :
  map_range (Channels (self s)) it →
  Forall (shim_event (self s)) (OnStop_loop_events it).
Proof.
  intros Hit.
  assert (Hin : ∀ kc, kc ∈ it → Channels (self s) !! kc.1 = Some kc.2)
    by eauto using in_range_lookup.
  clear Hit. induction it as [|[k c] it IH]; [constructor|].
  change (Forall (shim_event (self s))
            (close_events (cs_Channel c) ++ OnStop_loop_events it)).
  apply Forall_app. split.
  - unfold close_events.
    assert (shim_event (self s) (EvChannelClose (cs_Channel c))).
    { exists k, c. split; [|done]. apply (Hin (k, c)), list_elem_of_here. }
    destruct (Channel_Close_err (cs_Channel c)); repeat constructor; done.
  - apply IH. intros kc Hkc. by apply Hin, list_elem_of_further.
Qed.

Lemma shim_event_tasks s it :
  map_range (Channels (self s)) it →
  Forall (shim_event (self s))
    ((λ kc, EvGo (proto_Message := proto_Message) (PeerID := PeerID)
               (ID (Descriptor kc.2)) (OutCh kc.2)) <$> it).
Proof.
  intros Hit. apply Forall_fmap, Forall_forall. intros [k c] Hkc.
  exists k, c. split; [|done]. by apply (in_range_lookup it (k, c)).
Qed.

(** Names the events an outcome adds. *)
Ltac adds H :=
  lazymatch type of H with
  | _ = Done _ (add_events ?t _) => exists t; rewrite H
  | _ = Panic _ (add_events ?t _) => exists t; rewrite H
  | _ = Done _ _ => exists []; rewrite H, add_events_nil
  | _ = Panic _ _ => exists []; rewrite H, add_events_nil
  end.

Ltac own_events :=
  unfold validation_events, update_events;
  repeat match goal with
         | |- context [match ?x with _ => _ end] => destruct x
         end;
  simpl; repeat (apply Forall_cons; split); try apply Forall_nil;
  simpl; eauto 10.

(** What one call adds: events on the shim's own channels, and at most the
    close of the peer-update channel, as its last step. *)
Lemma call_step s (c : Call) :
  legal s c →
  ∃ t, Forall (shim_event (self s)) t
       ∧ chan_closes t = []
       ∧ (final (call c s) = add_events t s
          ∨ ((PeerUpdateCh (self s) ∉ closed s)
             ∧ final (call c s) = close_after t s)).
Proof.
  intros Hlegal.
  destruct c as [chID src msgBytes ready|peer ready|peer reason ready
                |it|it|it|chID e]; simpl in *.
  - destruct (Receive_cases s chID src msgBytes ready)
      as [[_ H]|[(_ & _ & H)|[(c & msg & err & _ & Hch & _ & H)
         |[(c & msg & err & _ & Hch & _ & _ & H)
         |[(c & msg & peerID & err & _ & Hch & _ & _ & _ & H)
         |[(c & msg & peerID & _ & (Hch & _) & _ & H)
         |(c & msg & peerID & _ & (Hch & _) & _ & H)]]]]]];
      adds H.
    all: split_and!; [own_events| |by left].
    all: unfold chan_closes, validation_events.
    all: repeat match goal with
                | |- context [match ?x with _ => _ end] => destruct x
                end.
    all: done.
  - destruct (PeerIDFromString (Peer_ID peer)) as [peerID [err|]] eqn:Hid.
    + pose proof (AddPeer_unparsable s peer ready peerID err Hid) as H.
      adds H. split_and!; [constructor|done|by left].
    + destruct (decide (PeerUpdateCh (self s) ∈ closed s)) as [Hcl|Hopen].
      * pose proof (AddPeer_closed s peer ready peerID Hid Hcl) as H.
        adds H. split_and!; [constructor|done|by left].
      * pose proof (AddPeer_open s peer ready peerID Hid Hopen) as H.
        adds H. split_and!; [own_events|by destruct ready|by left].
  - destruct (PeerIDFromString (Peer_ID peer)) as [peerID [err|]] eqn:Hid.
    + pose proof (RemovePeer_unparsable s peer reason ready peerID err Hid) as H.
      adds H. split_and!; [constructor|done|by left].
    + destruct (decide (PeerUpdateCh (self s) ∈ closed s)) as [Hcl|Hopen].
      * pose proof (RemovePeer_closed s peer reason ready peerID Hid Hcl) as H.
        adds H. split_and!; [constructor|done|by left].
      * pose proof (RemovePeer_open s peer reason ready peerID Hid Hopen) as H.
        adds H. split_and!; [own_events|by destruct ready|by left].
  - unfold OnStart, mbind, M_bind, get_self. simpl.
    destruct (IsRunning (base (self s))).
    + rewrite proxyPeerEnvelopes_spec. simpl. eexists.
      split_and!; [by apply shim_event_tasks| |by left].
      unfold chan_closes. clear Hlegal.
      induction it as [|kc it IH]; [done|]. simpl. exact IH.
    + simpl. exists []. rewrite add_events_nil.
      split_and!; [constructor|done|by left].
  - destruct (decide (PeerUpdateCh (self s) ∈ closed s)) as [Hcl|Hopen].
    + rewrite OnStop_closed by done. simpl. eexists.
      split_and!; [by apply shim_event_loop|apply chan_closes_loop|by left].
    + rewrite OnStop_open by done. simpl. exists (OnStop_loop_events it).
      split_and!; [by apply shim_event_loop|apply chan_closes_loop|by right].
  - unfold mbind, M_bind. rewrite GetChannels_spec by done. simpl.
    exists []. rewrite add_events_nil.
    split_and!; [constructor|done|by left].
  - destruct (proxyEnvelope_cases s chID e) as [[v H]|(p & bz & H)].
    + adds H. split_and!; [constructor|done|by left].
    + adds H. split_and!; [own_events|done|by left].
Qed.

Lemma lifetime_step s (c : Call) :
  legal s c →
  Forall (shim_event (self s)) (trace s) →
  closed_at_most_once s →
  Forall (shim_event (self s)) (trace (final (call c s)))
  ∧ closed_at_most_once (final (call c s)).
Proof.
  intros Hlegal Hown Hcl.
  destruct (framed_call c s) as (Hself & _).
  unfold closed_at_most_once. rewrite Hself.
  destruct (call_step s c Hlegal) as (t & Ht & Hnone & [->|[Hopen ->]]);
    simpl.
  - split; [by apply Forall_app|].
    unfold chan_closes in *. rewrite omap_app, Hnone, (right_id_L [] (++)).
    exact Hcl.
  - split.
    + rewrite (assoc_L (++)). repeat (apply Forall_app; split); try done.
      by repeat constructor.
    + right. destruct Hcl as [[Hc Hn]|[Hc _]].
      * rewrite Hc, (right_id_L ∅ (∪)). split; [done|].
        unfold chan_closes in *. by rewrite !omap_app, Hn, Hnone.
      * destruct Hopen. rewrite Hc. by apply elem_of_singleton.
Qed.

Lemma lifetime_invariant s :
  reachable s →
  Forall (shim_event (self s)) (trace s) ∧ closed_at_most_once s.
Proof.
  intros (name & ds & v & Hr).
  induction Hr as [|s c _ [IH1 IH2] Hlegal|s br _ IH].
  - unfold NewShim, closed_at_most_once. destruct (NewShim_loop _ _ _).
    simpl. split; [constructor|by left].
  - destruct (framed_call c s) as (Hself & _).
    destruct (lifetime_step s c Hlegal IH1 IH2) as [H1 H2].
    by rewrite Hself.
  - exact IH.
Qed.

(** X6. In the life of a shim built by [NewShim], [OnStop] completes once:
    it returns exactly when the peer-update channel has not been closed,
    which is exactly when the shim has executed no [close] so far; a call
    that panics has executed no [close]; and after a call of [OnStop],
    whether it returned or not, every further call panics. *)
Theorem OnStop_returns_iff s it :
  reachable s →
  map_range (Channels (self s)) it →
  let o := OnStop it s in
  (returns o = true ↔ PeerUpdateCh (self s) ∉ closed s)
  ∧ (returns o = true ↔ chan_closes (trace s) = [])
  ∧ (returns o = false → chan_closes (since s (final o)) = [])
  ∧ ∀ it', returns (OnStop it' (final o)) = false.
Proof.
  intros Hreach Hit o. subst o.
  destruct (lifetime_invariant s Hreach) as [_ Hcl].
  destruct (decide (PeerUpdateCh (self s) ∈ closed s)) as [Hin|Hopen].
  - rewrite OnStop_closed by done. simpl. rewrite since_add_events.
    split_and!; [done| |intros _; apply chan_closes_loop|].
    + split; [done|]. intros Hnone.
      destruct Hcl as [[Hc _]|[_ Hc]].
      * rewrite Hc in Hin. by apply not_elem_of_empty in Hin.
      * by rewrite Hnone in Hc.
    + intros it'. by rewrite OnStop_closed.
  - rewrite OnStop_open by done. simpl. split_and!; [done| |done|].
    + split; [|done]. intros _.
      destruct Hcl as [[_ Hc]|[Hc _]]; [done|].
      destruct Hopen. rewrite Hc. by apply elem_of_singleton.
    + intros it'. rewrite OnStop_closed; [done|]. simpl.
      apply elem_of_union_l. by apply elem_of_singleton.
Qed.

(** X11. Over the whole life of a shim built by [NewShim], the code of the
    shim executes [close] on the peer-update channel only, and at most
    once: either the trace holds no [close] and the peer-update channel is
    open, or it holds one [close], of the peer-update channel, which then
    is closed. And no inbound endpoint is closed: the send of [Receive]
    never finds its channel closed. *)
Theorem shim_closes_only_PeerUpdateCh s :
  reachable s →
  ((chan_closes (trace s) = [] ∧ PeerUpdateCh (self s) ∉ closed s)
   ∨ (chan_closes (trace s) = [PeerUpdateCh (self s)]
      ∧ PeerUpdateCh (self s) ∈ closed s))
  ∧ ∀ k c, Channels (self s) !! k = Some c → InCh c ∉ closed s.
Proof.
  intros Hreach. destruct (lifetime_invariant s Hreach) as [_ Hcl].
  split; [|eauto using reachable_InCh_open].
  destruct Hcl as [[Hc Hn]|[Hc Hn]]; [left|right]; (split; [done|]);
    rewrite Hc.
  - apply not_elem_of_empty.
  - by apply elem_of_singleton.
Qed.

(** X12. Over the whole life of a shim, whatever the calls: every envelope
    it has handed over went to the inbound endpoint of a channel of its map
    and names no destination, every peer update went to its peer-update
    channel, every task was started for a channel of its map. In
    particular the shim never sends an envelope on an outbound endpoint, an
    error endpoint or the peer-update channel. *)
Theorem shim_uses_its_own_channels s :
  reachable s →
  Forall (shim_event (self s)) (trace s)
  ∧ ∀ ch e k c,
      (ch, e) ∈ envelopes (trace s) →
      Channels (self s) !! k = Some c →
      ch ≠ OutCh c ∧ ch ≠ PeerErrCh c ∧ ch ≠ PeerUpdateCh (self s).
Proof.
  intros Hreach. destruct (lifetime_invariant s Hreach) as [Hown _].
  split; [done|]. intros ch e k c Hin Hkc.
  apply list_elem_of_omap in Hin as (ev & Hev & Heq).
  rewrite Forall_forall in Hown. specialize (Hown _ Hev).
  destruct ev; try discriminate Heq. injection Heq as -> ->.
  destruct Hown as (_ & k' & c' & Hkc' & ->).
  destruct Hreach as (name & ds & v & Hr).
  destruct (reaches_entry _ _ _ _ _ _ Hr Hkc) as (i & cds & Hi & -> & ->).
  destruct (reaches_entry _ _ _ _ _ _ Hr Hkc') as (i' & cds' & Hi' & -> & ->).
  pose proof (lookup_lt_Some _ _ _ Hi') as Hlt.
  rewrite (reaches_PeerUpdateCh _ _ Hr), NewShim_PeerUpdateCh.
  simpl. lia.
Qed.

(** ** GetChannels in any state *)

(** X13. Ranging over the map in any of its orders, [GetChannels] returns
    without a panic and without any effect, and the slice it returns has
    one entry for each channel of the map, none of them nil: as a list it
    is the descriptors of the map's shims, up to order. *)
Theorem GetChannels_lists_the_map s it :
  map_range (Channels (self s)) it →
  ∃ out, GetChannels it s = Done out s
         ∧ length out = size (Channels (self s))
         ∧ (None ∉ out)
         ∧ out ≡ₚ (Some ∘ Descriptor ∘ snd) <$> map_to_list (Channels (self s))
         ∧ ∀ d, Some d ∈ out
                ↔ ∃ k c, Channels (self s) !! k = Some c ∧ Descriptor c = d.
Proof.
  intros Hit. eexists. split; [by apply GetChannels_spec|].
  split_and!.
  - rewrite length_fmap, Hit. apply length_map_to_list.
  - intros ([k c] & [=] & _)%list_elem_of_fmap.
  - by rewrite Hit.
  - intros d. rewrite list_elem_of_fmap. split.
    + intros ([k c] & [= ->] & Hin). exists k, c. split; [|done].
      by apply (in_range_lookup it (k, c)).
    + intros (k & c & Hkc & <-). exists (k, c). split; [done|].
      rewrite Hit. by apply elem_of_map_to_list.
Qed.

(** ** The proxy task over many envelopes *)

Lemma range_app {A} (xs ys : list A) (body : A → M unit) s :
  range (xs ++ ys) body s = (range xs body ;; range ys body) s.
Proof.
  revert s. induction xs as [|x xs IH]; intros s; simpl; [done|].
  unfold mbind, M_bind in *. destruct (body x s); [apply IH|done].
Qed.

Lemma proxyEnvelope_unsendable s s' chID e :
  self s' = self s → unsendable s e →
  ∃ v, proxyEnvelope chID e s' = Panic v s'.
Proof.
  intros Hs Hun. unfold unsendable in Hun.
  destruct (Switch_peers (base (self s)) !! PeerID_String (To e))
    as [p|] eqn:Hp.
  - destruct Hun as [[=]|(bz & err & Hm)].
    eexists. apply (proxyEnvelope_encode_error _ _ _ p bz err); by rewrite ?Hs.
  - eexists. apply proxyEnvelope_no_peer. by rewrite Hs.
Qed.

(** X14. A proxy task sends the envelopes it receives one by one, in the
    order received, as long as each resolves to a peer and encodes; at the
    first envelope that does not, it panics: the earlier envelopes have
    been sent, this one and the later ones never are. *)
Theorem proxyTask_sends_until_failure s chID es ps :
  Forall2 (λ e pb, sendable s e pb.1 pb.2) es ps →
  proxyTask chID es s = Done tt (add_events (send_events chID ps) s)
  ∧ ∀ e rest,
      unsendable s e →
      ∃ v, proxyTask chID (es ++ e :: rest) s
           = Panic v (add_events (send_events chID ps) s).
Proof.
  intros Hall.
  assert (Hes : proxyTask chID es s
                = Done tt (add_events (send_events chID ps) s))
    by (by apply proxyTask_sends).
  split; [done|]. intros e rest Hun.
  unfold proxyTask in *. rewrite range_app. unfold mbind at 1, M_bind at 1.
  rewrite Hes. simpl. unfold mbind, M_bind.
  destruct (proxyEnvelope_unsendable s
              (add_events (send_events chID ps) s) chID e) as [v ->];
    [done..|].
  by exists v.
Qed.

(** ** The proxy task of a channel *)

Lemma filter_fmap_unique {A B} (f : A → B) (P : B → Prop)
    `{!∀ y, Decision (P y)} (l : list A) (x : A) :
  NoDup l → x ∈ l → P (f x) → (∀ y, y ∈ l → P (f y) → y = x) →
  filter P (f <$> l) = [f x].
Proof.
  induction l as [|y l IH]; intros Hnd Hin Hx Huniq.
  - by apply elem_of_nil in Hin.
  - apply NoDup_cons in Hnd as [Hy Hnd]. rewrite fmap_cons.
    destruct (decide (P (f y))) as [HP|HnP].
    + assert (y = x) as -> by (apply Huniq; [left|done]).
      rewrite filter_cons_True by done. f_equal.
      destruct (filter P (f <$> l)) as [|z zs] eqn:Hz; [done|].
      assert (Hin' : z ∈ filter P (f <$> l)) by (rewrite Hz; left).
      apply list_elem_of_filter in Hin' as [HP' Hin'].
      apply list_elem_of_fmap in Hin' as (w & -> & Hw).
      destruct Hy. rewrite <-(Huniq w); [done|by right|done].
    + rewrite filter_cons_False by done.
      apply IH; [done| |done|].
      * apply elem_of_cons in Hin as [->|Hin]; done.
      * intros w Hw. apply Huniq. by right.
Qed.

(** On a shim built by [NewShim], [proxyPeerEnvelopes] starts one task on
    the outbound endpoint of a channel of the map, and starts it on the
    legacy ID of that channel's descriptor. *)
Lemma proxyPeerEnvelopes_draining s it k c :
  reachable s →
  map_range (Channels (self s)) it →
  Channels (self s) !! k = Some c →
  draining (OutCh c) (tasks (since s (final (proxyPeerEnvelopes it s))))
  = [(ID (Descriptor c), OutCh c)].
Proof.
  intros Hreach Hit Hkc. rewrite proxyPeerEnvelopes_spec. simpl.
  rewrite since_add_events, tasks_fmap_EvGo. unfold draining.
  apply (filter_fmap_unique task_of (λ t, t.2 = OutCh c) it (k, c)).
  - rewrite Hit. apply NoDup_map_to_list.
  - rewrite Hit. by apply elem_of_map_to_list.
  - done.
  - intros [k' c'] Hin Hout. simpl in Hout.
    pose proof (in_range_lookup it (k', c') s Hit Hin) as Hkc'. simpl in Hkc'.
    assert (k' = k) as ->.
    { apply (reachable_shared_endpoint s k' c' k c (OutCh c')); [done..| |].
      - unfold endpoints. rewrite !elem_of_cons. auto.
      - rewrite Hout. unfold endpoints. rewrite !elem_of_cons. auto. }
    rewrite Hkc in Hkc'. by injection Hkc' as ->.
Qed.

(** C2: the task that [proxyPeerEnvelopes] starts on the outbound endpoint
    of a channel [c] of the map is started on the legacy ID of [c]'s
    descriptor, and it is the only task on that endpoint. For every
    envelope [e] that this task consumes from the endpoint, having sent the
    envelopes [pre] that came before it: if the destination of [e] does not
    resolve to a peer of the registry, or if encoding its message fails,
    the task panics, and nothing has been sent for [e] or will be for the
    envelopes after it; otherwise the task calls the byte-send primitive of
    the resolved peer exactly once, with the encoded payload and the legacy
    ID of [c], and goes on with the next envelope whatever the send
    answers. [s2] is the state of the program when the task runs. *)
Theorem proxy_task_round s it k c (sent : chan_ref → list Envelope) pre ps e
    rest s2 :
  reachable s →
  map_range (Channels (self s)) it →
  Channels (self s) !! k = Some c →
  sent (OutCh c) = pre ++ e :: rest →
  Forall2 (λ e' pb, sendable s2 e' pb.1 pb.2) pre ps →
  let chID := ID (Descriptor c) in
  let started := tasks (since s (final (proxyPeerEnvelopes it s))) in
  let s3 := add_events (send_events chID ps) s2 in
  draining (OutCh c) started = [(chID, OutCh c)]
  ∧ ∀ t, t ∈ draining (OutCh c) started →
      let o := go_proxy sent t s2 in
      (Switch_peers (base (self s2)) !! PeerID_String (To e) = None →
       ∃ v, o = Panic v s3)
      ∧ (∀ p bz err,
           Switch_peers (base (self s2)) !! PeerID_String (To e) = Some p →
           proto_Marshal (Message e) = (bz, Some err) →
           ∃ v, o = Panic v s3)
      ∧ (∀ p bz,
           Switch_peers (base (self s2)) !! PeerID_String (To e) = Some p →
           proto_Marshal (Message e) = (bz, None) →
           o = proxyTask chID rest (add_events [EvSend p chID bz] s3)).
Proof.
  intros Hreach Hit Hkc Hsent Hpre chID started s3.
  assert (Hd : draining (OutCh c) started = [(chID, OutCh c)])
    by (by apply (proxyPeerEnvelopes_draining s it k c)).
  split; [done|]. intros t Ht o. subst o.
  rewrite Hd in Ht. apply list_elem_of_singleton in Ht as ->.
  assert (Hgo : go_proxy sent (chID, OutCh c) s2
                = match proxyEnvelope chID e s3 with
                  | Done _ s' => proxyTask chID rest s'
                  | Panic v s' => Panic v s'
                  end).
  { unfold go_proxy. simpl. rewrite Hsent.
    unfold proxyTask. rewrite range_app. unfold mbind at 1, M_bind at 1.
    pose proof (proxyTask_sends s2 chID pre ps Hpre) as Hrun.
    unfold proxyTask in Hrun. by rewrite Hrun. }
  rewrite Hgo. split_and!.
  - intros Hp. rewrite (proxyEnvelope_no_peer s3) by exact Hp. by eexists.
  - intros p bz err Hp Hm.
    rewrite (proxyEnvelope_encode_error s3 _ _ p bz err) by done. by eexists.
  - intros p bz Hp Hm. by rewrite (proxyEnvelope_sent s3 _ _ p bz) by done.
Qed.

(** ** Out and back in *)

(** X15. Out and back in: when the proxy task of a channel of the map sends
    an envelope, and the bytes it sent come back to [Receive] on the same
    legacy ID and decode to the message that was encoded, then, the
    validator accepting and the source's identity parsing, they arrive on
    the inbound endpoint of that same channel, with that message. *)
Theorem sent_bytes_return_to_their_channel s k c e p bz src peerID ready :
  reachable s →
  IsRunning (base (self s)) = true →
  Channels (self s) !! k = Some c →
  sendable s e p bz →
  decoded c bz = (Message e, None) →
  verdict (self s) (ID (Descriptor c)) src bz (Message e) = None →
  PeerIDFromString (Peer_ID src) = (peerID, None) →
  let chID := ID (Descriptor c) in
  let o := (proxyEnvelope chID e ;; Receive chID src bz ready) s in
  returns o = true
  ∧ sends (since s (final o)) = [(p, chID, bz)]
  ∧ envelopes (since s (final o))
    = if ready then [(InCh c, envelope_from peerID (Message e))] else [].
Proof.
  intros Hreach Hrun Hkc [Hp Hm] Hdec Hv Hid chID o. subst chID o.
  pose proof (reachable_key _ _ _ Hreach Hkc) as Hk. rewrite Hk in Hkc.
  unfold mbind, M_bind. rewrite (proxyEnvelope_sent _ _ _ p bz) by done.
  rewrite (Receive_accepted _ _ _ _ _ c (Message e) peerID);
    [|done..|by apply (reachable_InCh_open s
                         (ChannelID_of_byte (ID (Descriptor c))) c)].
  rewrite add_events_app. simpl. rewrite since_add_events.
  unfold validation_events. simpl.
  destruct (rs_MessageValidator (self s)), ready; done.
Qed.

(** ** Many arrivals *)

Lemma Receive_all_accepted s s' xs ys :
  self s' = self s → closed s' = closed s →
  IsRunning (base (self s)) = true →
  (∀ k c, Channels (self s) !! k = Some c → InCh c ∉ closed s) →
  Forall2 (λ x y, acceptable s (arr_chID x) (arr_src x) (arr_bytes x)
                    (acc_shim y) (acc_msg y) (acc_peerID y)) xs ys →
  ∃ t, Receive_all xs s' = Done tt (add_events t s')
       ∧ envelopes t = omap id (zip_with delivery xs ys).
Proof.
  intros Hs Hc Hrun Hopen Hall. revert s' Hs Hc. unfold Receive_all.
  induction Hall as [|x y xs ys (Hch & Hdec & Hv & Hid) _ IH];
    intros s' Hs Hc; cbn [range zip_with].
  - exists []. by rewrite add_events_nil.
  - unfold mbind at 1, M_bind at 1.
    rewrite (Receive_accepted s' _ _ _ _ (acc_shim y) (acc_msg y) (acc_peerID y));
      [|by rewrite ?Hs, ?Hc; eauto..].
    set (t1 := validation_events (self s') (arr_chID x) (arr_src x)
                 (arr_bytes x) (acc_msg y)
               ++ (if arr_ready x
                   then [EvEnvelope (InCh (acc_shim y))
                           (envelope_from (acc_peerID y) (acc_msg y));
                         EvLog LvlDebug "proxied envelope"]
                   else [EvLog LvlDebug "dropped envelope"])).
    destruct (IH (add_events t1 s')) as (t & Heq & Ht); [done..|].
    exists (t1 ++ t). split.
    + etrans; [exact Heq|]. by rewrite add_events_app.
    + unfold envelopes in *. rewrite omap_app, Ht. subst t1.
      unfold validation_events, delivery.
      destruct (rs_MessageValidator (self s')), (arr_ready x); done.
Qed.

(** X16. When the legacy transport calls [Receive] for a series of
    arrivals that are all accepted, the envelopes the shim hands over are
    those of the arrivals for which a receiver was ready, in the order of
    the calls: an arrival without a receiver is left out, nothing is
    reordered, and every call returns. *)
Theorem Receive_all_keeps_the_order s xs ys :
  reachable s →
  IsRunning (base (self s)) = true →
  Forall2 (λ x y, acceptable s (arr_chID x) (arr_src x) (arr_bytes x)
                    (acc_shim y) (acc_msg y) (acc_peerID y)) xs ys →
  let o := Receive_all xs s in
  returns o = true
  ∧ envelopes (since s (final o)) = omap id (zip_with delivery xs ys).
Proof.
  intros Hreach Hrun Hall o. subst o.
  destruct (Receive_all_accepted s s xs ys) as (t & -> & Ht);
    [done..|eauto using reachable_InCh_open|done|].
  simpl. by rewrite since_add_events.
Qed.

(** ** Receive after OnStop *)

(** What [Receive] does depends on the struct and on whether the inbound
    endpoint is closed, and on nothing else of the state. *)
Lemma Receive_same_events s s' chID src msgBytes ready :
  self s' = self s →
  (∀ k c, Channels (self s) !! k = Some c →
          InCh c ∈ closed s' ↔ InCh c ∈ closed s) →
  returns (Receive chID src msgBytes ready s')
  = returns (Receive chID src msgBytes ready s)
  ∧ since s' (final (Receive chID src msgBytes ready s'))
    = since s (final (Receive chID src msgBytes ready s)).
Proof.
  intros Hs Hcl.
  destruct (Receive_cases s chID src msgBytes ready)
    as [[Hrun H]|[(Hrun & Hch & H)|[(c & msg & err & Hrun & Hch & Hdec & H)
       |[(c & msg & err & Hrun & Hch & Hdec & Hv & H)
       |[(c & msg & peerID & err & Hrun & Hch & Hdec & Hv & Hid & H)
       |[(c & msg & peerID & Hrun & Hacc & Hin & H)
       |(c & msg & peerID & Hrun & Hacc & Hin & H)]]]]]];
    rewrite H.
  - rewrite Receive_stopped by (by rewrite ?Hs). simpl.
    by rewrite !since_refl.
  - rewrite Receive_unknown by (by rewrite ?Hs). simpl.
    by rewrite !since_add_events.
  - rewrite (Receive_undecodable _ _ _ _ _ c msg err) by (by rewrite ?Hs).
    simpl. by rewrite !since_add_events, ?Hs.
  - rewrite (Receive_rejected _ _ _ _ _ c msg err) by (by rewrite ?Hs).
    simpl. by rewrite !since_add_events, ?Hs.
  - rewrite (Receive_unparsable _ _ _ _ _ c msg peerID err) by (by rewrite ?Hs).
    simpl. by rewrite !since_add_events, ?Hs.
  - pose proof Hacc as (Hch & Hdec & Hv & Hid).
    rewrite (Receive_closed s' _ _ _ _ c msg peerID);
      [|by rewrite ?Hs|by unfold acceptable; rewrite ?Hs
       |by eapply Hcl].
    simpl. by rewrite !since_add_events, ?Hs.
  - pose proof Hacc as (Hch & Hdec & Hv & Hid).
    rewrite (Receive_accepted s' _ _ _ _ c msg peerID);
      [|by rewrite ?Hs..|by intros ?%(Hcl _ _ Hch)].
    simpl. by rewrite !since_add_events, ?Hs.
Qed.

(** X17. [OnStop] leaves the inbound path as it is: it closes no inbound
    endpoint and does not touch the running flag, so on a shim built by
    [NewShim] a call of [Receive] after [OnStop] returns or panics, and
    leaves the events, that the same call would have before [OnStop]. Only
    the framework's running flag keeps [Receive] from delivering after a
    stop. *)
Theorem Receive_is_unchanged_by_OnStop s it chID src msgBytes ready :
  reachable s →
  map_range (Channels (self s)) it →
  let s' := final (OnStop it s) in
  returns (Receive chID src msgBytes ready s')
  = returns (Receive chID src msgBytes ready s)
  ∧ since s' (final (Receive chID src msgBytes ready s'))
    = since s (final (Receive chID src msgBytes ready s)).
Proof.
  intros Hreach Hit s'. subst s'.
  apply Receive_same_events.
  - by destruct (framed_OnStop it s) as (-> & _).
  - intros k c Hkc.
    destruct Hreach as (name & ds & v & Hr).
    destruct (reaches_endpoints_open _ _ (endpoints_open_NewShim name ds v) Hr)
      as [_ Hlt]. specialize (Hlt _ _ Hkc).
    destruct (decide (PeerUpdateCh (self s) ∈ closed s)) as [Hcl|Hopen].
    + by rewrite OnStop_closed by done.
    + rewrite OnStop_open by done. simpl.
      rewrite elem_of_union, elem_of_singleton. split; [|by right].
      intros [?|?]; [lia|done].
Qed.

End Properties.

(** * The shim at work *)

Module Run.

Import Demo.

Lemma order_range (s : demo) : map_range (Channels (self s)) (order s).
Proof. unfold map_range, order. reflexivity. Defined.

Example hex_roundtrip : PeerIDFromString (PeerID_String [x0a; x1b]) = ([x0a; x1b], None).
Proof. reflexivity. Qed.

Example running_votes :
  Channels (self running) !! ChannelID_of_byte x20 = Some votes_shim.
Proof. vm_compute. reflexivity. Qed.

Example GetChannels_running :
  GetChannels (order running) running = Done [Some votes; Some blocks] running.
Proof. vm_compute. reflexivity. Qed.

Lemma running_reachable : reachable running.
Proof.
  exists "demo", [shim_of votes; shim_of blocks], (Some no_empty).
  apply reaches_set_base, reaches_refl.
Defined.

(** *** Receive *)

(** Three bytes from [alice] on channel 0x20 of the running shim, a
    receiver waiting: the two bytes of payload arrive on the channel's
    inbound endpoint, from [alice]'s identity. *)
Lemma Receive_delivers_one_envelope_witness :
  let o := Receive x20 alice [x02; xaa; xbb] true running in
  returns o = true
  ∧ envelopes (since running (final o))
    = [(0, {| From := [x0a; x1b]; To := []; Message := [xaa; xbb] |})].
Proof.
  intros o.
  destruct (Receive_delivers_one_envelope running x20 alice
              [x02; xaa; xbb] true votes_shim [xaa; xbb] [x0a; x1b])
    as (Hret & Henv & _).
  - exact running_reachable.
  - reflexivity.
  - vm_compute. reflexivity.
  - reflexivity.
  - reflexivity.
  - reflexivity.
  - split; [exact Hret|exact Henv].
Defined.

(** The same bytes on the shim that is not running, and on the running shim
    from a peer whose identity does not parse: a receiver is waiting, no
    envelope arrives. *)
Lemma accepted_is_delivered_counterexample :
  ¬ accepted_is_delivered halted x20 alice [x02; xaa; xbb] true
  ∧ ¬ accepted_is_delivered running x20 mallory [x02; xaa; xbb] true.
Proof.
  split; intros H.
  - specialize (H votes_shim [xaa; xbb]).
    assert (Hch : Channels (self halted) !! ChannelID_of_byte x20 = Some votes_shim)
      by (vm_compute; reflexivity).
    specialize (H Hch eq_refl eq_refl). vm_compute in H. discriminate H.
  - specialize (H votes_shim [xaa; xbb]).
    assert (Hch : Channels (self running) !! ChannelID_of_byte x20 = Some votes_shim)
      by (vm_compute; reflexivity).
    specialize (H Hch eq_refl eq_refl). vm_compute in H. discriminate H.
Qed.

Example Receive_halted :
  Receive x20 alice [x02; xaa; xbb] true halted = Done tt halted.
Proof. vm_compute. reflexivity. Qed.

Example Receive_unparsable_panics :
  Receive x20 mallory [x02; xaa; xbb] true running
  = Panic "invalid peer ID"
      (add_events [EvValidate x20 mallory [x02; xaa; xbb] [xaa; xbb]] running).
Proof. vm_compute. reflexivity. Qed.

(** A length byte that promises more than follows. *)
Lemma Receive_reports_decode_failure_witness :
  let o := Receive x20 alice [x05; xaa] true running in
  unmarshal_failures (since running (final o))
  = [(x20, alice, [x05; xaa], "unexpected EOF")]
  ∧ envelopes (since running (final o)) = []
  ∧ returns o = true.
Proof.
  intros o.
  destruct (Receive_reports_decode_failure running x20 alice [x05; xaa] true
              votes_shim [] "unexpected EOF") as (Hhook & Henv & Hret).
  - reflexivity.
  - vm_compute. reflexivity.
  - reflexivity.
  - split_and!; [|exact Henv|exact Hret].
    apply Hhook. exists no_empty. reflexivity.
Defined.

(** On the shim that is not running the hook is not called. *)
Lemma undecodable_is_reported_counterexample :
  ¬ undecodable_is_reported halted x20 alice [x05; xaa] true.
Proof.
  intros H. specialize (H votes_shim [] "unexpected EOF").
  assert (Hch : Channels (self halted) !! ChannelID_of_byte x20 = Some votes_shim)
    by (vm_compute; reflexivity).
  destruct (H Hch eq_refl) as [Hhook _].
  assert (Hv : is_Some (rs_MessageValidator (self halted))) by (by eexists).
  specialize (Hhook Hv). vm_compute in Hhook. discriminate Hhook.
Qed.

Lemma Receive_unknown_channel_witness :
  let o := Receive x07 alice [x00] true running in
  error_logs (since running (final o)) = ["unexpected channel"]
  ∧ envelopes (since running (final o)) = []
  ∧ unmarshal_failures (since running (final o)) = []
  ∧ validations (since running (final o)) = []
  ∧ returns o = true.
Proof.
  intros o.
  destruct (Receive_unknown_channel running x07 alice [x00] true)
    as (Hlog & Hrest).
  - vm_compute. reflexivity.
  - split; [|exact Hrest]. apply Hlog. reflexivity.
Defined.

(** On the shim that is not running nothing is logged. *)
Lemma unknown_is_logged_counterexample :
  ¬ unknown_is_logged halted x07 alice [x00] true.
Proof.
  intros H.
  assert (Hch : Channels (self halted) !! ChannelID_of_byte x07 = None)
    by (vm_compute; reflexivity).
  destruct (H Hch) as [Hlog _]. vm_compute in Hlog. discriminate Hlog.
Qed.

(** An empty message, which the validator rejects. *)
Lemma Receive_drops_rejected_witness :
  let o := Receive x20 alice [x00] true running in
  envelopes (since running (final o)) = []
  ∧ unmarshal_failures (since running (final o)) = []
  ∧ returns o = true.
Proof.
  apply (Receive_drops_rejected running x20 alice [x00] true votes_shim []
           no_empty "empty message").
  - vm_compute. reflexivity.
  - reflexivity.
  - reflexivity.
  - reflexivity.
Defined.

Example Receive_rejected_trace :
  since running (final (Receive x20 alice [x00] true running))
  = [EvValidate x20 alice [x00] []; EvLog LvlError "invalid message"].
Proof. vm_compute. reflexivity. Qed.

(** *** The proxy task *)

(** The task of channel 0x20 sends the first envelope of [outbox] to
    [alice] and panics on the second, whose peer is not connected; the
    third is never sent. A task that receives a message too long to encode
    panics on it. *)
Lemma proxy_task_round_witness :
  draining 1 (tasks (since running
                       (final (proxyPeerEnvelopes (order running) running))))
  = [(x20, 1)]
  ∧ go_proxy outbox (x20, 1) running
    = proxyTask x20 [to_nobody; to_alice]
        (add_events [EvSend alice x20 [x01; xaa]] running)
  ∧ (∃ v, go_proxy outbox (x20, 1) running
          = Panic v (add_events [EvSend alice x20 [x01; xaa]] running))
  ∧ ∃ v, go_proxy (λ _, [too_long]) (x20, 1) running = Panic v running.
Proof.
  destruct (proxy_task_round running (order running) 32%N votes_shim outbox
              [] [] to_alice [to_nobody; to_alice] running
              running_reachable (order_range running))
    as [Hd Hfirst]; [vm_compute; reflexivity|reflexivity|constructor|].
  destruct (proxy_task_round running (order running) 32%N votes_shim outbox
              [to_alice] [(alice, [x01; xaa])] to_nobody [to_alice] running
              running_reachable (order_range running))
    as [_ Hsecond];
    [vm_compute; reflexivity|reflexivity
    |repeat constructor; vm_compute; reflexivity|].
  destruct (proxy_task_round running (order running) 32%N votes_shim
              (λ _, [too_long]) [] [] too_long [] running
              running_reachable (order_range running))
    as [_ Hlong]; [vm_compute; reflexivity|reflexivity|constructor|].
  split_and!.
  - exact Hd.
  - destruct (Hfirst (x20, 1)) as (_ & _ & Hsent);
      [rewrite Hd; apply list_elem_of_here|].
    apply (Hsent alice [x01; xaa]); vm_compute; reflexivity.
  - destruct (Hsecond (x20, 1)) as (Hnone & _);
      [rewrite Hd; apply list_elem_of_here|].
    apply Hnone. vm_compute. reflexivity.
  - destruct (Hlong (x20, 1)) as (_ & Herr & _);
      [rewrite Hd; apply list_elem_of_here|].
    apply (Herr alice [] "message too long"); vm_compute; reflexivity.
Defined.

Example go_proxy_outbox :
  sends (since running (final (go_proxy outbox (x20, 1) running)))
  = [(alice, x20, [x01; xaa])].
Proof. vm_compute. reflexivity. Qed.

(** *** GetChannels *)

Lemma GetChannels_returns_configured_witness :
  ∃ out, GetChannels (order fresh) fresh = Done out fresh
         ∧ same_set out [Some votes; Some blocks].
Proof.
  refine (GetChannels_returns_configured "demo"
            [shim_of votes; shim_of blocks] (Some no_empty) (order fresh) _ _).
  - vm_compute. repeat constructor; intros Hin;
      repeat (apply elem_of_cons in Hin as [Hin|Hin]; [discriminate Hin|]);
      by apply elem_of_nil in Hin.
  - apply order_range.
Defined.

Lemma enumerates_configured_counterexample :
  ¬ enumerates_configured (PeerID := list byte) "demo"
      [shim_of votes; shim_of votes_again] None (order twice).
Proof.
  intros H. destruct H as (out & s' & Hrun & Hset); [apply order_range|].
  rewrite GetChannels_spec in Hrun by apply order_range.
  injection Hrun as <- _.
  assert (Hin : Some votes ∈ Some <$> (cds_Descriptor <$>
                  [shim_of votes; shim_of votes_again])) by apply list_elem_of_here.
  apply Hset in Hin. vm_compute in Hin.
  apply list_elem_of_singleton in Hin. discriminate Hin.
Qed.

Example GetChannels_twice :
  GetChannels (order twice) twice = Done [Some votes_again] twice.
Proof. vm_compute. reflexivity. Qed.

Lemma NewShim_keeps_last_per_ID_witness :
  let s : demo :=
    NewShim "demo" [shim_of votes; shim_of blocks; shim_of votes_again] None in
  Channels (self s) !! 32%N = Some (shim_at 6 (shim_of votes_again))
  ∧ ∃ out, GetChannels (order s) s = Done out s ∧ length out = 2 ∧ length out < 3.
Proof.
  intros s.
  destruct (NewShim_keeps_last_per_ID "demo"
              [shim_of votes; shim_of blocks; shim_of votes_again] None
              (order s) (order_range s))
    as (Hlast & _ & out & Hrun & Hlen & Hlt).
  split.
  - exact (Hlast [shim_of votes; shim_of blocks] (shim_of votes_again) []
             eq_refl (not_elem_of_nil _)).
  - exists out. split_and!; [exact Hrun|exact Hlen|].
    apply Hlt. vm_compute. intros Hnd.
    apply NoDup_cons in Hnd as [Hnotin _]. apply Hnotin.
    apply list_elem_of_further, list_elem_of_here.
Defined.

(** *** AddPeer, RemovePeer and OnStop *)

Lemma AddPeer_then_RemovePeer_witness :
  let o := (AddPeer alice true ;; RemovePeer alice "gone" true) running in
  returns o = true
  ∧ peer_updates (since running (final o))
    = [(6, {| upd_PeerID := [x0a; x1b]; Status := PeerStatusUp |});
       (6, {| upd_PeerID := [x0a; x1b]; Status := PeerStatusDown |})].
Proof.
  refine (AddPeer_then_RemovePeer running alice "gone" true true [x0a; x1b] _ _).
  - vm_compute. intros [=].
  - reflexivity.
Defined.

(** After [OnStop], no receiver: [AddPeer] panics. *)
Lemma up_then_down_counterexample :
  ¬ up_then_down stopped alice "gone" false false.
Proof.
  intros H. destruct (H [x0a; x1b] eq_refl) as [Hret _].
  vm_compute in Hret. discriminate Hret.
Qed.

Example AddPeer_stopped :
  AddPeer alice false stopped = Panic "send on closed channel" stopped.
Proof. vm_compute. reflexivity. Qed.

Lemma OnStop_closes_all_witness :
  let o := OnStop (order running) running in
  returns o = true
  ∧ handle_closes (since running (final o))
    = [cs_Channel votes_shim; cs_Channel (shim_at 3 (shim_of blocks))]
  ∧ error_logs (since running (final o)) = ["failed to close channel"]
  ∧ chan_closes (since running (final o)) = [6].
Proof.
  intros o.
  destruct (OnStop_closes_all running (order running)) as
    (Hret & _ & Hh & Hlog & Hcl & _).
  - apply order_range.
  - vm_compute. intros [=].
  - split_and!; [exact Hret|exact Hh|exact Hlog|exact Hcl].
Defined.

(** A second [OnStop] panics. *)
Lemma OnStop_completes_counterexample :
  ¬ OnStop_completes stopped (order stopped).
Proof.
  intros H. specialize (H (order_range stopped)). vm_compute in H.
  discriminate H.
Qed.

Example OnStop_twice :
  OnStop (order stopped) stopped
  = Panic "close of closed channel"
      (add_events (OnStop_loop_events (PeerID := list byte) (order stopped))
         stopped).
Proof. vm_compute. reflexivity. Qed.

Example OnStop_twice_trace :
  since stopped (final (OnStop (order stopped) stopped))
  = [EvChannelClose (cs_Channel votes_shim);
     EvChannelClose (cs_Channel (shim_at 3 (shim_of blocks)));
     EvLog LvlError "failed to close channel"].
Proof. vm_compute. reflexivity. Qed.

(** *** The channel map *)

Lemma stopped_reaches : reaches fresh stopped.
Proof.
  apply (reaches_call fresh halted (CallOnStop (order halted))).
  - apply reaches_set_base, reaches_refl.
  - apply order_range.
Defined.

Lemma Channels_never_change_witness :
  Channels (self stopped) = Channels (self fresh)
  ∧ Channels (self stopped) !! 33%N = Some (shim_at 3 (shim_of blocks))
  ∧ Channels (self (final (calls life stopped))) = Channels (self fresh).
Proof.
  destruct (Channels_never_change "demo"
              [shim_of votes; shim_of blocks] (Some no_empty) stopped
              stopped_reaches) as (_ & Hsame & Hk & Hcalls).
  split_and!; [exact Hsame| |exact (Hcalls life)].
  rewrite Hk. vm_compute. reflexivity.
Defined.

Example life_panics : returns (calls life running) = false.
Proof. vm_compute. reflexivity. Qed.

(** ** Further properties at work *)

Lemma stopped_reachable : reachable stopped.
Proof.
  exists "demo", [shim_of votes; shim_of blocks], (Some no_empty).
  exact stopped_reaches.
Defined.

Lemma delivered_once_reachable : reachable delivered_once.
Proof.
  exists "demo", [shim_of votes; shim_of blocks], (Some no_empty).
  apply (reaches_call fresh running (CallReceive x20 alice [x02; xaa; xbb] true)).
  - apply reaches_set_base, reaches_refl.
  - exact I.
Defined.

(** [mallory], whose identity does not parse, sends a message that is
    accepted, and an empty one that the validator rejects. *)
Lemma Receive_panics_on_bad_identity_witness :
  Receive x20 mallory [x02; xaa; xbb] true running
  = Panic "invalid peer ID"
      (add_events [EvValidate x20 mallory [x02; xaa; xbb] [xaa; xbb]] running)
  ∧ returns (Receive x20 mallory [x00] true running) = true.
Proof.
  assert (Hid : PeerIDFromString (Peer_ID mallory) = ([], Some "invalid peer ID"))
    by reflexivity.
  split.
  - destruct (Receive_panics_on_bad_identity running x20 mallory
                [x02; xaa; xbb] true [] "invalid peer ID" Hid)
      as (_ & _ & _ & _ & Hpanic).
    destruct (Hpanic votes_shim [xaa; xbb]) as [Ho _];
      [reflexivity|vm_compute; reflexivity|reflexivity|reflexivity|].
    exact Ho.
  - destruct (Receive_panics_on_bad_identity running x20 mallory
                [x00] true [] "invalid peer ID" Hid)
      as (_ & _ & _ & Hrej & _).
    apply (Hrej votes_shim [] "empty message");
      [vm_compute; reflexivity|reflexivity|reflexivity].
Defined.

Lemma OnStart_starts_one_task_per_channel_witness :
  ∃ s', OnStart (order running) running = Done None s'
        ∧ tasks (since running s') = [(x20, 1); (x21, 4)].
Proof.
  destruct (OnStart_starts_one_task_per_channel running (order running)
              (order_range running)) as (s' & Hrun & Htasks & _).
  exists s'. split; [exact Hrun|]. rewrite Htasks. vm_compute. reflexivity.
Defined.

Lemma NewShim_channels_are_fresh_witness :
  NoDup (endpoints votes_shim ++ [PeerUpdateCh (self running)])
  ∧ (32%N ≠ 33%N → ∀ ch, ch ∈ endpoints votes_shim → ch ∉ endpoints blocks_shim).
Proof.
  refine (NewShim_channels_are_fresh running 32%N votes_shim 33%N blocks_shim
            running_reachable _ _).
  - vm_compute. reflexivity.
  - vm_compute. reflexivity.
Defined.

Lemma Channels_stay_wired_witness :
  wired 33%N blocks_shim
  ∧ Channels (self stopped) !! ChannelID_of_byte (ID (Descriptor blocks_shim))
    = Some blocks_shim.
Proof.
  refine (Channels_stay_wired stopped 33%N blocks_shim stopped_reachable _).
  vm_compute. reflexivity.
Defined.

Lemma OnStart_tasks_are_distinct_witness :
  let started := tasks (since running (final (OnStart (order running) running))) in
  started = task_of <$> order running ∧ NoDup started.*1 ∧ NoDup started.*2.
Proof.
  refine (OnStart_tasks_are_distinct running (order running)
            running_reachable (order_range running) _).
  reflexivity.
Defined.

Lemma OnStop_returns_iff_witness :
  returns (OnStop (order running) running) = true
  ∧ returns (OnStop (order stopped) stopped) = false
  ∧ returns (OnStop (order running) (final (OnStop (order running) running)))
    = false.
Proof.
  destruct (OnStop_returns_iff running (order running) running_reachable
              (order_range running)) as (_ & Hfirst & _ & Hnext).
  destruct (OnStop_returns_iff stopped (order stopped) stopped_reachable
              (order_range stopped)) as (_ & Hsecond & _).
  split_and!.
  - apply Hfirst. vm_compute. reflexivity.
  - destruct (returns (OnStop (order stopped) stopped)); [|done].
    pose proof (proj1 Hsecond eq_refl) as Hnone.
    vm_compute in Hnone. discriminate Hnone.
  - exact (Hnext (order running)).
Defined.

Lemma shim_closes_only_PeerUpdateCh_witness :
  chan_closes (trace stopped) = [PeerUpdateCh (self stopped)]
  ∧ PeerUpdateCh (self stopped) ∈ closed stopped
  ∧ InCh votes_shim ∉ closed stopped.
Proof.
  destruct (shim_closes_only_PeerUpdateCh stopped stopped_reachable)
    as [[[Hnone _]|[Hone Hin]] Hopen].
  - vm_compute in Hnone. discriminate Hnone.
  - split_and!; [exact Hone|exact Hin|].
    apply (Hopen 32%N). vm_compute. reflexivity.
Defined.

Example stopped_closes : chan_closes (trace stopped) = [6].
Proof. vm_compute. reflexivity. Qed.

Lemma shim_uses_its_own_channels_witness :
  Forall (shim_event (self delivered_once)) (trace delivered_once)
  ∧ ∀ ch e k c,
      (ch, e) ∈ envelopes (trace delivered_once) →
      Channels (self delivered_once) !! k = Some c →
      ch ≠ OutCh c ∧ ch ≠ PeerErrCh c ∧ ch ≠ PeerUpdateCh (self delivered_once).
Proof.
  exact (shim_uses_its_own_channels delivered_once delivered_once_reachable).
Defined.

Example delivered_once_envelopes :
  envelopes (trace delivered_once)
  = [(0, {| From := [x0a; x1b]; To := []; Message := [xaa; xbb] |})].
Proof. vm_compute. reflexivity. Qed.

Lemma GetChannels_lists_the_map_witness :
  ∃ out, GetChannels (order running) running = Done out running
         ∧ length out = 2
         ∧ (None ∉ out).
Proof.
  destruct (GetChannels_lists_the_map running (order running)
              (order_range running)) as (out & Hrun & Hlen & Hnil & _).
  exists out. split_and!; [exact Hrun| |exact Hnil].
  rewrite Hlen. vm_compute. reflexivity.
Defined.

Lemma proxyTask_sends_until_failure_witness :
  proxyTask x20 [to_alice; to_alice] running
  = Done tt (add_events
      (send_events x20 [(alice, [x01; xaa]); (alice, [x01; xaa])]) running)
  ∧ ∃ v, proxyTask x20 ([to_alice; to_alice] ++ to_nobody :: [to_alice]) running
         = Panic v (add_events
             (send_events x20 [(alice, [x01; xaa]); (alice, [x01; xaa])])
             running).
Proof.
  destruct (proxyTask_sends_until_failure running x20 [to_alice; to_alice]
              [(alice, [x01; xaa]); (alice, [x01; xaa])]) as [Hall Hfail].
  - repeat constructor; vm_compute; reflexivity.
  - split; [exact Hall|]. apply Hfail. left. vm_compute. reflexivity.
Defined.

Lemma sent_bytes_return_to_their_channel_witness :
  let o := (proxyEnvelope x20 to_alice ;; Receive x20 alice [x01; xaa] true)
             running in
  returns o = true
  ∧ sends (since running (final o)) = [(alice, x20, [x01; xaa])]
  ∧ envelopes (since running (final o))
    = [(InCh votes_shim, envelope_from [x0a; x1b] [xaa])].
Proof.
  refine (sent_bytes_return_to_their_channel running 32%N votes_shim to_alice
            alice [x01; xaa] alice [x0a; x1b] true running_reachable
            _ _ _ _ _ _).
  - reflexivity.
  - vm_compute. reflexivity.
  - split; vm_compute; reflexivity.
  - reflexivity.
  - reflexivity.
  - reflexivity.
Defined.

Lemma Receive_all_keeps_the_order_witness :
  let o := Receive_all arrivals running in
  returns o = true
  ∧ envelopes (since running (final o))
    = omap id (zip_with delivery arrivals resolved).
Proof.
  refine (Receive_all_keeps_the_order running arrivals resolved
            running_reachable _ _).
  - reflexivity.
  - repeat constructor; vm_compute; reflexivity.
Defined.

Example arrivals_delivered :
  omap id (zip_with delivery arrivals resolved)
  = [(0, envelope_from [x0a; x1b] [xaa; xbb]);
     (0, envelope_from [x0a; x1b] [xdd])].
Proof. reflexivity. Qed.

Lemma Receive_is_unchanged_by_OnStop_witness :
  let s' := final (OnStop (order running) running) in
  returns (Receive x20 alice [x02; xaa; xbb] true s')
  = returns (Receive x20 alice [x02; xaa; xbb] true running)
  ∧ since s' (final (Receive x20 alice [x02; xaa; xbb] true s'))
    = since running (final (Receive x20 alice [x02; xaa; xbb] true running)).
Proof.
  exact (Receive_is_unchanged_by_OnStop running (order running) x20 alice
           [x02; xaa; xbb] true running_reachable (order_range running)).
Defined.

Example Receive_after_OnStop :
  envelopes (since (final (OnStop (order running) running))
               (final (Receive x20 alice [x02; xaa; xbb] true
                         (final (OnStop (order running) running)))))
  = [(0, envelope_from [x0a; x1b] [xaa; xbb])].
Proof. vm_compute. reflexivity. Qed.

End Run.
